(** * ETL pipeline (src/main.py): type coercion, surrogate keys, upsert

    A shallow embedding of the pandas / SQLAlchemy pipeline of [src/main.py].
    A [DataFrame] is a list of named, dtype-tagged columns ([Series]), the
    way pandas stores it; Python exceptions are the [Raise] branch of
    [result]; the JSON mapping contract is modelled down to its text; the
    MySQL table is a list of rows with a declared primary key. *)

From stdpp Require Import gmap strings list sorting.
From Stdlib Require Import ZArith Ascii.
From Stdlib Require DecimalFacts DecimalZ.

(** ** Exceptions *)

Inductive exn :=
  KeyError | IndexError | ValueError | TypeError | FileNotFoundError | SQLError.

Inductive result (A : Type) :=
| Ok (a : A)
| Raise (e : exn).
Arguments Ok {A} a.
Arguments Raise {A} e.

Global Instance result_bind : MBind result := λ A B k r,
  match r with Ok a => k a | Raise e => Raise e end.

Fixpoint rmapM {A B} (f : A → result B) (l : list A) : result (list B) :=
  match l with
  | [] => Ok []
  | a :: l' => b ← f a ; bs ← rmapM f l' ; Ok (b :: bs)
  end.

(** ** Python dictionaries with string keys

    A [dict] keeps its keys in insertion order; assigning to a key that is
    present overwrites the value in place. A [DataFrame] is such a
    dictionary of columns. *)

Definition dict (V : Type) := list (string * V).

Fixpoint dict_get {V} (k : string) (d : dict V) : option V :=
  match d with
  | [] => None
  | (k', v) :: d' => if decide (k' = k) then Some v else dict_get k d'
  end.

Fixpoint dict_set {V} (k : string) (v : V) (d : dict V) : dict V :=
  match d with
  | [] => [(k, v)]
  | (k', v') :: d' =>
      if decide (k' = k) then (k', v) :: d' else (k', v') :: dict_set k v d'
  end.

(** [dict(pairs)]: the pairs are inserted from left to right. *)
Definition dict_of_pairs {V} (l : list (string * V)) : dict V :=
  foldl (λ d kv, dict_set kv.1 kv.2 d) [] l.

(** ** Cell values

    A float is kept as an exact decimal [m * 10^e] (or an infinity); the
    float NaN is the separate scalar [SNaN]. [SNone] is Python's [None],
    [SNA] is [pd.NA]. *)

Inductive num :=
| Dec (m e : Z)
| Inf (neg : bool).

Inductive scalar :=
| SNone
| SNaN
| SNA
| SStr (s : string)
| SNum (x : num)
| SBool (b : bool).

Global Instance num_eq_dec : EqDecision num.
Proof. solve_decision. Defined.
Global Instance scalar_eq_dec : EqDecision scalar.
Proof. solve_decision. Defined.

Definition int (n : Z) : scalar := SNum (Dec n 0).

(** [pd.isna] on one cell. *)
Definition isna (v : scalar) : bool :=
  match v with SNone | SNaN | SNA => true | _ => false end.

(** ** Series and DataFrame *)

Inductive dtype :=
| DObject
| DInt64
| DFloat64
| DBoolean
| DCategory (categories : list string)
| DCategoryInt (categories : list Z)
| DString
| DDatetime
| DInt32.

Global Instance dtype_eq_dec : EqDecision dtype.
Proof. solve_decision. Defined.

Record Series := mkSeries { sdtype : dtype; values : list scalar }.

Definition DataFrame := dict Series.

(** [df[name]]; a missing label raises [KeyError]. *)
Definition getitem (name : string) (df : DataFrame) : result Series :=
  match dict_get name df with
  | Some s => Ok s
  | None => Raise KeyError
  end.

Definition nrows (df : DataFrame) : nat :=
  match df with
  | [] => 0
  | (_, s) :: _ => length (values s)
  end.

(** [df.to_dict("records")]: one association list per row. *)
Fixpoint to_records_aux (n : nat) (df : DataFrame) : list (dict scalar) :=
  match df with
  | [] => replicate n []
  | (name, s) :: df' =>
      zip_with (λ v r, (name, v) :: r) (values s) (to_records_aux n df')
  end.

Definition to_records (df : DataFrame) : list (dict scalar) :=
  to_records_aux (nrows df) df.

(** Boolean-mask row selection, as [numpy.compress]. *)
Fixpoint compress {A} (mask : list bool) (l : list A) : list A :=
  match mask, l with
  | b :: mask', x :: l' => if b then x :: compress mask' l' else compress mask' l'
  | _, _ => []
  end.

Definition select_rows (mask : list bool) (df : DataFrame) : DataFrame :=
  (λ c, (c.1, mkSeries (sdtype c.2) (compress mask (values c.2)))) <$> df.

(** ** Numeric literals

    The literal grammar of Python's [float()]: surrounding whitespace, an
    optional sign, then [inf], [infinity] or [nan] in any case, or decimal
    digits with an optional fraction and exponent. [us] says whether single
    underscores between digits are accepted ([float()] accepts them,
    [pd.to_numeric] does not). [None] is a parse failure, [Some None] is
    NaN. *)

Definition digit_val (c : ascii) : option Z :=
  let n := Z.of_N (N_of_ascii c) in
  if (48 <=? n)%Z && (n <=? 57)%Z then Some (n - 48)%Z else None.

Fixpoint read_digits (us : bool) (acc cnt : Z) (l : list ascii)
    : Z * Z * list ascii :=
  match l with
  | [] => (acc, cnt, [])
  | c :: l' =>
      match digit_val c with
      | Some d => read_digits us (10 * acc + d)%Z (cnt + 1)%Z l'
      | None =>
          if us && bool_decide (c = "_"%char) && (0 <? cnt)%Z then
            match l' with
            | c' :: _ =>
                if is_Some_dec (digit_val c') then read_digits us acc cnt l'
                else (acc, cnt, l)
            | [] => (acc, cnt, l)
            end
          else (acc, cnt, l)
      end
  end.

Definition lower (c : ascii) : ascii :=
  let n := N_of_ascii c in
  if (65 <=? n)%N && (n <=? 90)%N then ascii_of_N (n + 32) else c.

Fixpoint lstrip (l : list ascii) : list ascii :=
  match l with
  | c :: l' => if Ascii.is_space c then lstrip l' else l
  | [] => []
  end.

Definition strip (l : list ascii) : list ascii :=
  reverse (lstrip (reverse (lstrip l))).

Definition read_sign (l : list ascii) : bool * list ascii :=
  match l with
  | "-"%char :: l' => (true, l')
  | "+"%char :: l' => (false, l')
  | _ => (false, l)
  end.

Definition signed (neg : bool) (m : Z) : Z := if neg then (- m)%Z else m.

Definition parse_number (us : bool) (s : string) : option (option num) :=
  let l := strip (String.list_ascii_of_string s) in
  let '(neg, l) := read_sign l in
  let word := String.string_of_list_ascii (lower <$> l) in
  if bool_decide (word = "inf") || bool_decide (word = "infinity")
  then Some (Some (Inf neg))
  else if bool_decide (word = "nan") then Some None
  else
    let '(ip, ic, l1) := read_digits us 0 0 l in
    let '(m, fc, l2) :=
      match l1 with
      | "."%char :: l1' => read_digits us ip 0 l1'
      | _ => (ip, 0%Z, l1)
      end in
    if (ic + fc =? 0)%Z then None
    else
      match l2 with
      | [] => Some (Some (Dec (signed neg m) (- fc)))
      | c :: l3 =>
          if bool_decide (lower c = "e"%char) then
            let '(eneg, l4) := read_sign l3 in
            let '(ev, ec, l5) := read_digits us 0 0 l4 in
            if (0 <? ec)%Z && bool_decide (l5 = [])
            then Some (Some (Dec (signed neg m) (signed eneg ev - fc)))
            else None
          else None
      end.

(** ** Pipeline part 3, [dropInvalid] *)

(** [pd.to_numeric(_, errors='coerce')] on one cell of an object column. *)
Definition to_numeric_coerce (v : scalar) : scalar :=
  match v with
  | SStr s =>
      match parse_number false s with
      | Some (Some x) => SNum x
      | _ => SNaN
      end
  | SNum x => SNum x
  | SBool b => int (if b then 1 else 0)
  | SNone | SNaN | SNA => SNaN
  end.

(** [df.iloc[:, i] = f(df.iloc[:, i])]: the values are written into the
    existing column. *)
Definition iloc_update (i : nat) (f : scalar → scalar) (df : DataFrame)
    : result DataFrame :=
  match df !! i with
  | None => Raise IndexError
  | Some (name, s) => Ok (<[i := (name, mkSeries (sdtype s) (f <$> values s))]> df)
  end.

(** [df.dropna(subset=[name])]. *)
Definition dropna (name : string) (df : DataFrame) : result DataFrame :=
  s ← getitem name df ;
  Ok (select_rows ((λ v, negb (isna v)) <$> values s) df).

Definition dropInvalid (df : DataFrame) : result DataFrame :=
  df1 ← iloc_update 1 to_numeric_coerce df ;
  dropna "animalID" df1.


(** One record with its identifier replaced by its numeric coercion. *)
Fixpoint coerce_id (r : dict scalar) : dict scalar :=
  match r with
  | [] => []
  | (n, v) :: r' =>
      if decide (n = "animalID") then (n, to_numeric_coerce v) :: r'
      else (n, v) :: coerce_id r'
  end.


(** ** Pipeline part 3, [dtypeConv]: the per-column coercions *)

(** The mapping scheme for booleans (line 186). Its keys are three strings
    and [None]. *)
Definition boolMap : list (scalar * scalar) :=
  [(SStr "Yes", SBool true); (SStr "No", SBool false);
   (SStr EmptyString, SNA); (SNone, SNA)].

(** [Series.map(mapper)] with a dictionary on one cell: a value that is
    not a key becomes NaN. *)
Fixpoint mapper_get (mapper : list (scalar * scalar)) (v : scalar) : option scalar :=
  match mapper with
  | [] => None
  | (k, x) :: mapper' => if decide (k = v) then Some x else mapper_get mapper' v
  end.

Definition map_dict (mapper : list (scalar * scalar)) (v : scalar) : scalar :=
  default SNaN (mapper_get mapper v).

(** [astype('boolean')] on one cell of an object column: booleans and the
    integers 0 and 1 are kept, missing values become [pd.NA], anything else
    raises ("Need to pass bool-like values"). *)
Definition astype_boolean (v : scalar) : result scalar :=
  match v with
  | SBool b => Ok (SBool b)
  | SNone | SNaN | SNA => Ok SNA
  | SNum (Dec 0 0) => Ok (SBool false)
  | SNum (Dec 1 0) => Ok (SBool true)
  | SNum _ | SStr _ => Raise TypeError
  end.

(** [col.map(boolMap).astype('boolean')] (lines 194, 197, 201, 203, 213,
    217). *)
Definition dtypeConv_bool (col : Series) : result Series :=
  vs ← rmapM (λ v, astype_boolean (map_dict boolMap v)) (values col) ;
  Ok (mkSeries DBoolean vs).

(** [DataFrame.replace(old, new)] on one cell. *)
Definition replace_value (old new v : scalar) : scalar :=
  if decide (v = old) then new else v.

(** [astype(float)] on one cell of an object column, which is Python's
    [float(v)]; [None] becomes NaN, a string that is not a float literal
    raises [ValueError]. *)
Definition astype_float (v : scalar) : result scalar :=
  match v with
  | SStr s =>
      match parse_number true s with
      | Some (Some x) => Ok (SNum x)
      | Some None => Ok SNaN
      | None => Raise ValueError
      end
  | SNum x => Ok (SNum x)
  | SBool b => Ok (int (if b then 1 else 0))
  | SNone | SNaN => Ok SNaN
  | SNA => Raise TypeError
  end.

(** [col.replace('', np.nan).astype(float)] (line 199). *)
Definition dtypeConv_float (col : Series) : result Series :=
  vs ← rmapM astype_float (replace_value (SStr EmptyString) SNaN <$> values col) ;
  Ok (mkSeries DFloat64 vs).

(** [astype('category')] (lines 190, 193, ...): the categories are the
    distinct text values of the column in sorted order; a missing cell is
    NaN and belongs to no category. *)
Definition text_of (v : scalar) : option string :=
  match v with SStr s => Some s | _ => None end.

Definition sorted (l : list string) : list string := merge_sort String.le l.

Definition astype_category (col : Series) : Series :=
  mkSeries (DCategory (sorted (remove_dups (omap text_of (values col)))))
           ((λ v, if isna v then SNaN else v) <$> values col).

(** *** Null normalisation (lines 219 to 221)

    [df.replace({np.nan: None})] cannot store [None] in a typed block: a
    column in which something is replaced is cast to [object] first and the
    missing cells then hold [None]. A categorical column has no NaN among
    its categories and is left as it is. *)
Definition replace_nan_None (col : Series) : Series :=
  match sdtype col with
  | DCategory _ | DCategoryInt _ => col
  | _ =>
      if existsb isna (values col)
      then mkSeries DObject ((λ v, if isna v then SNone else v) <$> values col)
      else col
  end.

(** [df.select_dtypes(include=['float']).columns] *)
Definition float_columns (df : DataFrame) : list string :=
  omap (λ c, if decide (sdtype c.2 = DFloat64) then Some c.1 else None) df.

(** [col.replace(to_replace=[None, np.nan], value=0)] *)
Definition fill_zero (col : Series) : Series :=
  mkSeries (sdtype col) ((λ v, if isna v then int 0 else v) <$> values col).

Definition dtypeConv_nulls (df : DataFrame) : DataFrame :=
  let df1 := (λ c, (c.1, replace_nan_None c.2)) <$> df in
  foldl (λ d col,
           match dict_get col d with
           | Some s => dict_set col (fill_zero s) d
           | None => d
           end)
        df1 (float_columns df1).

(** ** JSON documents and their text

    [json.dump] and [json.load] on the documents the pipeline writes:
    objects, arrays, strings, integers and the three literals. Text is a
    list of characters; a character stands for the code point of the same
    number, so strings range over code points below 256. Numbers with a
    fraction or an exponent are outside the model and are rejected by
    [loads]. *)

#[warnings="-register-all"]
Inductive json :=
| JNull
| JBool (b : bool)
| JInt (n : Z)
| JStr (s : string)
| JArr (items : list json)
| JObj (members : list (string * json)).

Definition text := list ascii.

(** *** Encoder: [json.dumps] with its defaults ([ensure_ascii], the
    separators [", "] and [": "]) *)

Definition hex_digit (n : N) : ascii :=
  ascii_of_N (if (n <? 10)%N then 48 + n else 87 + n).

Definition escape_char (c : ascii) : text :=
  match c with
  | "034" => ["\"; "034"]
  | "\" => ["\"; "\"]
  | "010" => ["\"; "n"]
  | "013" => ["\"; "r"]
  | "009" => ["\"; "t"]
  | "008" => ["\"; "b"]
  | "012" => ["\"; "f"]
  | _ =>
      let n := N_of_ascii c in
      if (n <? 32)%N || (126 <? n)%N
      then ["\"; "u"; "0"; "0"; hex_digit (n / 16); hex_digit (n mod 16)]
      else [c]
  end%char.

Definition dump_string (s : string) : text :=
  ("034"%char :: flat_map escape_char (String.list_ascii_of_string s))
  ++ ["034"%char].

Fixpoint uint_text (u : Decimal.uint) : text :=
  match u with
  | Decimal.Nil => []
  | Decimal.D0 u => "0"%char :: uint_text u
  | Decimal.D1 u => "1"%char :: uint_text u
  | Decimal.D2 u => "2"%char :: uint_text u
  | Decimal.D3 u => "3"%char :: uint_text u
  | Decimal.D4 u => "4"%char :: uint_text u
  | Decimal.D5 u => "5"%char :: uint_text u
  | Decimal.D6 u => "6"%char :: uint_text u
  | Decimal.D7 u => "7"%char :: uint_text u
  | Decimal.D8 u => "8"%char :: uint_text u
  | Decimal.D9 u => "9"%char :: uint_text u
  end.

Definition dump_int (n : Z) : text :=
  match Z.to_int n with
  | Decimal.Pos u => uint_text u
  | Decimal.Neg u => "-"%char :: uint_text u
  end.

Fixpoint join (sep : text) (parts : list text) : text :=
  match parts with
  | [] => []
  | [p] => p
  | p :: parts' => p ++ sep ++ join sep parts'
  end.

Definition chars (s : string) : text := String.list_ascii_of_string s.

Fixpoint dump (j : json) : text :=
  match j with
  | JNull => chars "null"
  | JBool true => chars "true"
  | JBool false => chars "false"
  | JInt n => dump_int n
  | JStr s => dump_string s
  | JArr items => "["%char :: join (chars ", ") (map dump items) ++ ["]"%char]
  | JObj members =>
      "{"%char
      :: join (chars ", ")
           (map (λ kv, dump_string kv.1 ++ chars ": " ++ dump kv.2) members)
      ++ ["}"%char]
  end.

Definition dumps (j : json) : string := String.string_of_list_ascii (dump j).

(** *** Decoder: [json.loads] *)

Definition is_ws (c : ascii) : bool :=
  match c with
  | " " | "009" | "010" | "013" => true
  | _ => false
  end%char.

Fixpoint skip_ws (s : text) : text :=
  match s with
  | c :: r => if is_ws c then skip_ws r else s
  | [] => []
  end.

Definition hex_val (c : ascii) : option N :=
  let n := N_of_ascii c in
  if (48 <=? n)%N && (n <=? 57)%N then Some (n - 48)%N
  else if (97 <=? n)%N && (n <=? 102)%N then Some (n - 87)%N
  else if (65 <=? n)%N && (n <=? 70)%N then Some (n - 55)%N
  else None.

Definition hex4 (h1 h2 h3 h4 : ascii) : option N :=
  match hex_val h1, hex_val h2, hex_val h3, hex_val h4 with
  | Some a, Some b, Some c, Some d => Some (((a * 16 + b) * 16 + c) * 16 + d)%N
  | _, _, _, _ => None
  end.

Definition unescape (e : ascii) : option ascii :=
  match e with
  | "034" => Some "034"
  | "\" => Some "\"
  | "/" => Some "/"
  | "b" => Some "008"
  | "f" => Some "012"
  | "n" => Some "010"
  | "r" => Some "013"
  | "t" => Some "009"
  | _ => None
  end%char.

(** The characters of a string literal after its opening quote, up to and
    including the closing quote. A raw control character is an error. *)
Fixpoint parse_chars (s : text) : option (text * text) :=
  match s with
  | [] => None
  | c :: r =>
      if bool_decide (c = "034"%char) then Some ([], r)
      else if bool_decide (c = "\"%char) then
        match r with
        | [] => None
        | e :: r1 =>
            match unescape e with
            | Some c' =>
                match parse_chars r1 with
                | Some (cs, rest) => Some (c' :: cs, rest)
                | None => None
                end
            | None =>
                match r1 with
                | h1 :: h2 :: h3 :: h4 :: r2 =>
                    if bool_decide (e = "u"%char) then
                      match hex4 h1 h2 h3 h4 with
                      | Some code =>
                          if (code <? 256)%N then
                            match parse_chars r2 with
                            | Some (cs, rest) => Some (ascii_of_N code :: cs, rest)
                            | None => None
                            end
                          else None
                      | None => None
                      end
                    else None
                | _ => None
                end
            end
        end
      else if (N_of_ascii c <? 32)%N then None
      else
        match parse_chars r with
        | Some (cs, rest) => Some (c :: cs, rest)
        | None => None
        end
  end.

Definition digit_cons (c : ascii) : option (Decimal.uint → Decimal.uint) :=
  match c with
  | "0" => Some Decimal.D0
  | "1" => Some Decimal.D1
  | "2" => Some Decimal.D2
  | "3" => Some Decimal.D3
  | "4" => Some Decimal.D4
  | "5" => Some Decimal.D5
  | "6" => Some Decimal.D6
  | "7" => Some Decimal.D7
  | "8" => Some Decimal.D8
  | "9" => Some Decimal.D9
  | _ => None
  end%char.

Fixpoint read_uint (s : text) : Decimal.uint * text :=
  match s with
  | [] => (Decimal.Nil, [])
  | c :: r =>
      match digit_cons c with
      | Some d => let '(u, rest) := read_uint r in (d u, rest)
      | None => (Decimal.Nil, s)
      end
  end.

(** What may not follow the digits of an integer: a fraction or an
    exponent. *)
Definition float_tail (s : text) : bool :=
  match s with
  | c :: _ =>
      bool_decide (c = "."%char) || bool_decide (c = "e"%char)
      || bool_decide (c = "E"%char)
  | [] => false
  end.

Definition parse_int (neg : bool) (s : text) : option (json * text) :=
  let '(u, rest) := read_uint s in
  match u with
  | Decimal.Nil => None
  | Decimal.D0 (Decimal.D0 _ | Decimal.D1 _ | Decimal.D2 _ | Decimal.D3 _
               | Decimal.D4 _ | Decimal.D5 _ | Decimal.D6 _ | Decimal.D7 _
               | Decimal.D8 _ | Decimal.D9 _) => None
  | _ =>
      if float_tail rest then None
      else Some (JInt (Z.of_int (if neg then Decimal.Neg u else Decimal.Pos u)), rest)
  end.

(** Strings, integers and literals. *)
Definition parse_atom (s : text) : option (json * text) :=
  match s with
  | "034" :: r =>
      match parse_chars r with
      | Some (cs, rest) => Some (JStr (String.string_of_list_ascii cs), rest)
      | None => None
      end
  | "n" :: "u" :: "l" :: "l" :: rest => Some (JNull, rest)
  | "t" :: "r" :: "u" :: "e" :: rest => Some (JBool true, rest)
  | "f" :: "a" :: "l" :: "s" :: "e" :: rest => Some (JBool false, rest)
  | "-" :: r => parse_int true r
  | _ => parse_int false s
  end%char.

Fixpoint parse_value (fuel : nat) (s : text) : option (json * text) :=
  match fuel with
  | O => None
  | S fuel =>
      match skip_ws s with
      | "["%char :: r =>
          match skip_ws r with
          | "]"%char :: rest => Some (JArr [], rest)
          | _ =>
              match parse_items fuel r with
              | Some (items, rest) => Some (JArr items, rest)
              | None => None
              end
          end
      | "{"%char :: r =>
          match skip_ws r with
          | "}"%char :: rest => Some (JObj [], rest)
          | _ =>
              match parse_members fuel r with
              | Some (members, rest) => Some (JObj members, rest)
              | None => None
              end
          end
      | s' => parse_atom s'
      end
  end
with parse_items (fuel : nat) (s : text) : option (list json * text) :=
  match fuel with
  | O => None
  | S fuel =>
      match parse_value fuel s with
      | Some (v, r) =>
          match skip_ws r with
          | ","%char :: r' =>
              match parse_items fuel r' with
              | Some (vs, rest) => Some (v :: vs, rest)
              | None => None
              end
          | "]"%char :: rest => Some ([v], rest)
          | _ => None
          end
      | None => None
      end
  end
with parse_members (fuel : nat) (s : text) : option (list (string * json) * text) :=
  match fuel with
  | O => None
  | S fuel =>
      match skip_ws s with
      | "034"%char :: r =>
          match parse_chars r with
          | Some (k, r1) =>
              match skip_ws r1 with
              | ":"%char :: r2 =>
                  match parse_value fuel r2 with
                  | Some (v, r3) =>
                      match skip_ws r3 with
                      | ","%char :: r4 =>
                          match parse_members fuel r4 with
                          | Some (ms, rest) =>
                              Some ((String.string_of_list_ascii k, v) :: ms, rest)
                          | None => None
                          end
                      | "}"%char :: rest =>
                          Some ([(String.string_of_list_ascii k, v)], rest)
                      | _ => None
                      end
                  | None => None
                  end
              | _ => None
              end
          | None => None
          end
      | _ => None
      end
  end.

Definition loads (s : string) : option json :=
  let t := chars s in
  match parse_value (length t) t with
  | Some (j, rest) =>
      match skip_ws rest with
      | [] => Some j
      | _ => None
      end
  | None => None
  end.

(** ** Pipeline part 3, [schemaConv]: surrogate keys on the first run *)

(** A lookup table: the rows [(id, value)] of the DataFrame with the
    columns [id] and [value]. *)
Definition lookup_df := list (Z * string).

(** [range(a, b)] *)
Definition range (a b : Z) : list Z := seqZ a (b - a).

(** Lines 242 to 249 for one column: the sorted categories, and the table
    if there are more than 5 of them. *)
Definition make_lookup (categories : list string) : option lookup_df :=
  let uniqueVals := sorted categories in
  if (5 <? length uniqueVals)%nat
  then Some (zip (range 1 (Z.of_nat (length uniqueVals) + 1)) uniqueVals)
  else None.

(** [[col for col in df.select_dtypes(include='category')]] *)
Definition catList (df : DataFrame) : list string :=
  omap (λ c, match sdtype c.2 with DCategory _ => Some c.1 | _ => None end) df.

Definition build_lookupTables (df : DataFrame) : dict lookup_df :=
  foldl (λ lookupTables col,
           match dict_get col df with
           | Some s =>
               match sdtype s with
               | DCategory categories =>
                   match make_lookup categories with
                   | Some lookup => dict_set col lookup lookupTables
                   | None => lookupTables
                   end
               | _ => lookupTables
               end
           | None => lookupTables
           end)
        [] (catList df).

(** [dict(zip(lookup_df['value'], lookup_df['id']))] *)
Definition mapping_of (lookup : lookup_df) : dict Z :=
  dict_of_pairs ((λ r, (r.2, r.1)) <$> lookup).

(** [Series.map(mapping)] on one cell of a categorical column: a value
    that is not a key of the mapping becomes NaN. *)
Definition map_mapping (mapping : dict Z) (v : scalar) : scalar :=
  match v with
  | SStr s =>
      match dict_get s mapping with
      | Some i => int i
      | None => SNaN
      end
  | _ => SNaN
  end.

(** [Series.map(mapping)] on a categorical column. The categories are
    mapped; when every category has an id and the ids are distinct the
    result is categorical again, otherwise it is a plain numeric column,
    float as soon as it holds a NaN. *)
Definition Series_map (mapping : dict Z) (s : Series) : Series :=
  let vs := map_mapping mapping <$> values s in
  let plain := mkSeries (if existsb isna vs then DFloat64 else DInt64) vs in
  match sdtype s with
  | DCategory categories =>
      match mapM (λ c, dict_get c mapping) categories with
      | Some ids => if bool_decide (NoDup ids) then mkSeries (DCategoryInt ids) vs
                    else plain
      | None => plain
      end
  | _ => plain
  end.

(** [astype("Int32")]: the nullable integer type, whose missing value is
    [pd.NA]. *)
Definition astype_Int32 (s : Series) : Series :=
  mkSeries DInt32 ((λ v, if isna v then SNA else v) <$> values s).

(** [d[k] = f(d[k])] for a key that is present. *)
Definition dict_update {V} (k : string) (f : V → V) (d : dict V) : dict V :=
  match dict_get k d with
  | Some v => dict_set k (f v) d
  | None => d
  end.

(** Lines 252 to 256. *)
Definition convert_columns (df : DataFrame) (lookupTables : dict lookup_df)
    : DataFrame :=
  foldl (λ d e, dict_update e.1 (λ s, astype_Int32 (Series_map (mapping_of e.2) s)) d)
        df lookupTables.

(** [lookup_df.to_dict(orient='records')] *)
Definition to_dict_records (lookup : lookup_df) : json :=
  JArr ((λ r, JObj [("id", JInt r.1); ("value", JStr r.2)]) <$> lookup).

Definition serializable_lookup (lookupTables : dict lookup_df) : json :=
  JObj ((λ e, (e.1, to_dict_records e.2)) <$> lookupTables).

(** [schemaConv] returns the converted frame and the lookup tables; the
    third component is the text it writes to [lookupTables.json]. *)
Definition schemaConv (df : DataFrame) : DataFrame * dict lookup_df * string :=
  let lookupTables := build_lookupTables df in
  (convert_columns df lookupTables, lookupTables,
   dumps (serializable_lookup lookupTables)).

(** ** [schemaConv2]: the later runs *)

(** One record of a lookup table read back: its [id] and its [value]. The
    model keeps to the shape [schemaConv] writes, an integer id and a text
    value; other keys of the record are ignored. *)
Definition record_row (j : json) : result (Z * string) :=
  match j with
  | JObj members =>
      let d := dict_of_pairs members in
      match dict_get "id" d, dict_get "value" d with
      | Some (JInt i), Some (JStr v) => Ok (i, v)
      | _, _ => Raise ValueError
      end
  | _ => Raise ValueError
  end.

(** [pd.DataFrame(loaded[col])] *)
Definition DataFrame_of_records (j : json) : result lookup_df :=
  match j with
  | JArr items => rmapM record_row items
  | _ => Raise ValueError
  end.

(** Lines 278 to 282; [file] is the content of [lookupTables.json], [None]
    when the file does not exist. The members of a JSON object are loaded
    into a Python dictionary. *)
Definition load_lookupTables (file : option string) : result (dict lookup_df) :=
  match file with
  | None => Raise FileNotFoundError
  | Some s =>
      match loads s with
      | Some (JObj members) =>
          rmapM (λ e, t ← DataFrame_of_records e.2 ; Ok (e.1, t))
                (dict_of_pairs members)
      | Some _ => Raise TypeError
      | None => Raise ValueError
      end
  end.

(** Lines 285 to 290. *)
Definition schemaConv2_apply (lookupTables : dict lookup_df) (df : DataFrame)
    : DataFrame :=
  let df1 :=
    foldl (λ d col,
             match dict_get col lookupTables with
             | Some lookup => dict_update col (Series_map (mapping_of lookup)) d
             | None => d
             end)
          df (catList df) in
  (λ c, (c.1, replace_nan_None c.2)) <$> df1.

Definition schemaConv2 (file : option string) (df : DataFrame) : result DataFrame :=
  lookupTables ← load_lookupTables file ;
  Ok (schemaConv2_apply lookupTables df).

(** ** Pipeline part 4: the MySQL table and [upConnection] *)

(** A stored row holds one value per column of the table, in the order of
    the columns; [SNone] is SQL [NULL]. *)
Abbreviation row := (list scalar) (only parsing).

Record Table := mkTable {
  columns : list string;
  primary_key : list string;
  rows : list row
}.

(** Values the driver refuses to send: NaN, an infinity, [pd.NA]. *)
Definition unstorable (v : scalar) : bool :=
  match v with
  | SNaN | SNA | SNum (Inf _) => true
  | _ => false
  end.

(** The row [insert(table).values(record)] would insert: a column the
    record does not name takes its default, [NULL]. *)
Definition inserted (t : Table) (record : dict scalar) : row :=
  (λ c, default SNone (dict_get c record)) <$> columns t.

(** The values of a row in the primary-key columns. *)
Definition pk_values (t : Table) (r : row) : list scalar :=
  omap (λ cv, if decide (cv.1 ∈ primary_key t) then Some cv.2 else None)
       (zip (columns t) r).

(** [update_dict] (lines 408 to 411): every column that is not in
    [pk_cols] is set to the inserted value. *)
Definition update_row (t : Table) (old new : row) : row :=
  zip_with (λ c on, if decide (c ∈ primary_key t) then on.1 else on.2)
           (columns t) (zip old new).

(** The new row collides with a stored row on the primary key. *)
Definition duplicate_key (t : Table) (old new : row) : bool :=
  negb (bool_decide (primary_key t = []))
  && bool_decide (pk_values t old = pk_values t new).

(** The errors of one statement: no column left to update, a record key
    that is not a column of the table, a value the driver refuses, a
    [NULL] primary key. *)
Definition check_statement (t : Table) (record : dict scalar) : option exn :=
  if bool_decide (Forall (λ c, c ∈ primary_key t) (columns t)) then Some ValueError
  else if negb (forallb (λ kv, bool_decide (kv.1 ∈ columns t)) record)
  then Some SQLError
  else if existsb (λ kv, unstorable kv.2) record then Some SQLError
  else if existsb isna (pk_values t (inserted t record)) then Some SQLError
  else None.

(** [INSERT ... ON DUPLICATE KEY UPDATE] on the rows of the table. *)
Definition upsert_row (t : Table) (rs : list row) (new : row) : list row :=
  if existsb (λ old, duplicate_key t old new) rs
  then (λ old, if duplicate_key t old new then update_row t old new else old) <$> rs
  else rs ++ [new].

(** The statement built and executed for one record (lines 407 to
    412). *)
Definition execute_upsert (t : Table) (rs : list row) (record : dict scalar)
    : result (list row) :=
  match check_statement t record with
  | Some e => Raise e
  | None => Ok (upsert_row t rs (inserted t record))
  end.

(** A connection inside [engine.begin()]: the rows as committed and the
    rows as the open transaction sees them. *)
Record Connection := mkConnection {
  committed : list row;
  working : list row
}.

Definition begin (t : Table) : Connection := mkConnection (rows t) (rows t).

(** The loop of line 406: it stops at the first statement that raises. *)
Fixpoint execute_records (t : Table) (conn : Connection)
    (records : list (dict scalar)) : Connection * option exn :=
  match records with
  | [] => (conn, None)
  | record :: records' =>
      match execute_upsert t (working conn) record with
      | Ok rs => execute_records t (mkConnection (committed conn) rs) records'
      | Raise e => (conn, Some e)
      end
  end.

(** [upConnection] on the reflected table [t]: the table after the call,
    and the exception that leaves the call, if any. Leaving the
    [with engine.begin()] block normally commits, leaving it by an
    exception rolls back. *)
Definition upConnection (df : DataFrame) (t : Table) : Table * option exn :=
  let records := to_records df in
  let '(conn, raised) := execute_records t (begin t) records in
  match raised with
  | None => (mkTable (columns t) (primary_key t) (working conn), None)
  | Some e => (mkTable (columns t) (primary_key t) (committed conn), Some e)
  end.

(** ** Notions used in the statements *)

(** What the spec says of one boolean cell: "Yes" is true, "No" is false,
    everything else is unknown. *)
Definition tristate (v : scalar) : scalar :=
  if decide (v = SStr "Yes") then SBool true
  else if decide (v = SStr "No") then SBool false
  else SNA.



(** The table [schemaConv] builds for a label, if any. *)
Definition table_for (df : DataFrame) (col : string) : option lookup_df :=
  match dict_get col df with
  | Some s =>
      match sdtype s with
      | DCategory categories => make_lookup categories
      | _ => None
      end
  | None => None
  end.

(** The [species] column of the scenario, and the same column with a sixth
    distinct value. *)
Definition species_values : list scalar :=
  SStr <$> ["Dog"; "Cat"; "Dog"; "Bird"; "Cat"; "Dog"; "Fish"; "Rabbit"].

Definition species : Series := astype_category (mkSeries DObject species_values).

Definition species6 : Series :=
  astype_category
    (mkSeries DObject
       (SStr <$> ["Dog"; "Cat"; "Dog"; "Bird"; "Cat"; "Dog"; "Fish"; "Rabbit";
                  "Turtle"])).

(** Fuel that suffices to decode the text of a document. *)
Fixpoint fuel_of (j : json) : nat :=
  match j with
  | JArr items =>
      S ((fix go (l : list json) : nat :=
            match l with
            | [] => 0
            | x :: l' => S (fuel_of x) + go l'
            end) items)
  | JObj members =>
      S ((fix go (l : list (string * json)) : nat :=
            match l with
            | [] => 0
            | kv :: l' => S (fuel_of kv.2) + go l'
            end) members)
  | _ => 1
  end.

Definition items_fuel (l : list json) : nat :=
  foldr (λ x n, S (fuel_of x) + n) 0 l.

Definition members_fuel (l : list (string * json)) : nat :=
  foldr (λ kv n, S (fuel_of kv.2) + n) 0 l.

(** The text after a value does not continue a number. *)
Definition value_end (rest : text) : bool :=
  match rest with
  | [] => true
  | c :: _ => negb (bool_decide (is_Some (digit_cons c))) && negb (float_tail rest)
  end.

(** The text starts a value: no whitespace, no closing bracket. *)
Definition starts_value (s : text) : bool :=
  match s with
  | [] => false
  | c :: _ =>
      negb (is_ws c) && negb (bool_decide (c = "]"%char))
      && negb (bool_decide (c = "}"%char))
  end.

(** Decimal digits without a leading zero. *)
Definition canonical (u : Decimal.uint) : Prop :=
  u ≠ Decimal.Nil ∧ ∀ u', u = Decimal.D0 u' → u' = Decimal.Nil.

(** The decoder reads back the text of [j], whatever follows it. *)
Definition decodes (j : json) : Prop :=
  ∀ fuel rest, fuel_of j ≤ fuel → value_end rest = true →
    parse_value fuel (dump j ++ rest) = Some (j, rest).

(** The text starts a string, a number or a literal. *)
Definition atom_start (s : text) : bool :=
  match s with
  | [] => false
  | c :: _ =>
      starts_value s && negb (bool_decide (c = "["%char))
      && negb (bool_decide (c = "{"%char))
  end.

(** A table as MySQL keeps it for [upConnection]: it has a primary key and
    every stored row has one value per column. *)
Definition table_wf (t : Table) : Prop :=
  primary_key t ≠ [] ∧ Forall (λ r, length r = length (columns t)) (rows t).

(** The exception of the first statement of a batch that raises. *)
Fixpoint first_error (t : Table) (records : list (dict scalar)) : option exn :=
  match records with
  | [] => None
  | record :: records' =>
      match check_statement t record with
      | Some e => Some e
      | None => first_error t records'
      end
  end.

(** *** Insert-or-replace by key, in the abstract *)

Section upsert_by_key_defs.
Context {R K : Type} `{EqDecision K} (key : R → K).

Definition ups (rs : list R) (new : R) : list R :=
  if existsb (λ old, bool_decide (key old = key new)) rs
  then (λ old, if bool_decide (key old = key new) then new else old) <$> rs
  else rs ++ [new].

(** The last row of a batch with a given key. *)
Fixpoint final_of (news : list R) (k : K) : option R :=
  match news with
  | [] => None
  | b :: news' =>
      match final_of news' k with
      | Some x => Some x
      | None => if decide (key b = k) then Some b else None
      end
  end.

End upsert_by_key_defs.

(** A small [pets] table and a batch that updates identifier 42 twice and
    inserts identifier 99. *)
Definition pets : Table :=
  mkTable ["animalID"; "name"; "age"] ["animalID"]
          [[int 42; SStr "Rex"; int 3]; [int 7; SStr "Tom"; int 1]].

Definition batch : DataFrame :=
  [("animalID", mkSeries DInt64 [int 42; int 99; int 42]);
   ("name", mkSeries DObject [SStr "Rex"; SStr "Ace"; SStr "Max"]);
   ("age", mkSeries DInt64 [int 4; int 1; int 5])].

(** ** Pipeline part 1: [update_files] *)

(** A directory: the names of its files with their contents. The local
    path [os.path.join(folder_path, file)] is the name [file] inside the
    folder. *)
Definition Folder := dict string.

(** [s.startswith(prefix)] *)
Definition startswith (s prefix : string) : bool := String.prefix prefix s.

(** The daily update files (line 67). *)
Definition daily (file : string) : bool :=
  startswith file "newpets" || startswith file "updatedpets".

(** [download_file]: [open(local_file_path, "wb")] creates the file or
    empties it, and the transfer writes into it what the server sends,
    [transfer]. *)
Definition download_file (transfer : string) (local_file_path : string)
    (folder : Folder) : Folder :=
  dict_set local_file_path transfer folder.

(** [update_files] on the listing of the server, each name with what a
    transfer of it delivers, and the local folder. The local listing
    [fileListl] is taken once, before the loop. *)
Definition update_files (ftp : list (string * string)) (folder : Folder)
    : Folder :=
  let fileListr := ftp in
  let fileListl := folder.*1 in
  foldl (λ folder' remote,
           let file := remote.1 in
           if daily file then download_file remote.2 file folder'
           else if bool_decide (file ∈ fileListl) then folder'
           else download_file remote.2 file folder')
        folder fileListr.

(** ** Pipeline part 2: the loaders *)

Section loaders.
Context {J : Type}.

(** The libraries the loaders call: [zipfile.ZipFile] on the content of a
    file gives the members of the archive, each with its lines;
    [json.loads] decodes one line; [pd.DataFrame] builds the frame. *)
Variable ZipFile : string → result (list (string * list string)).
Variable json_loads : string → result J.
Variable pd_DataFrame : list J → DataFrame.

(** [zipReader] (lines 81 to 102) on the content of the file at
    [folder_path]: every line of every member, decoded, in order. *)
Definition zipReader (content : string) : result (list J) :=
  zip ← ZipFile content ;
  data ← rmapM (λ member, rmapM json_loads member.2) zip ;
  Ok (concat data).

(** The loop the three loaders share, over the files [os.listdir] names:
    the rows of the selected files are appended to [data]. *)
Fixpoint extend_selected (select : string → bool) (fileList : Folder)
    (data : list J) : result (list J) :=
  match fileList with
  | [] => Ok data
  | (file, content) :: fileList' =>
      if select file
      then rows ← zipReader content ;
           extend_selected select fileList' (data ++ rows)
      else extend_selected select fileList' data
  end.

Definition initialData (folder : Folder) : result DataFrame :=
  data ← extend_selected (λ file, startswith file "pets_") folder [] ;
  Ok (pd_DataFrame data).

Definition updateData (folder : Folder) : result DataFrame :=
  data ← extend_selected
            (λ file, startswith file "updated" || startswith file "new")
            folder [] ;
  Ok (pd_DataFrame data).

Definition newData (folder : Folder) : result DataFrame :=
  data ← extend_selected (λ file, startswith file "new") folder [] ;
  Ok (pd_DataFrame data).

End loaders.

(** ** Pipeline part 4: [inConnection] and [uploadLookupTables] *)

(** [str.lower()] on code points below 256. *)
Definition lower_char (c : ascii) : ascii :=
  let n := N_of_ascii c in
  if ((65 <=? n)%N && (n <=? 90)%N)
     || ((192 <=? n)%N && (n <=? 222)%N && negb (n =? 215)%N)
  then ascii_of_N (n + 32)
  else c.

Definition str_lower (s : string) : string :=
  String.string_of_list_ascii (lower_char <$> String.list_ascii_of_string s).

(** The column types [to_sql] chooses from, and the long text type of
    line 321. *)
Inductive sqltype :=
| BIGINT | INTEGER | SMALLINT | DOUBLE | BOOL | DATETIME | TEXT | MEDIUMTEXT.

Global Instance sqltype_eq_dec : EqDecision sqltype.
Proof. solve_decision. Defined.

(** A key on a text column needs a prefix length. *)
Definition is_text (ty : sqltype) : bool :=
  match ty with TEXT | MEDIUMTEXT => true | _ => false end.

(** A table of the database with the types of its columns. *)
Record Relation := mkRelation { coltypes : list sqltype; body : Table }.

Definition Database := dict Relation.

(** Lines 319 to 323. *)
Definition dtype_map (df : DataFrame) : dict sqltype :=
  let dtype_map := [] in
  let dtype_map :=
    if bool_decide ("description" ∈ df.*1)
    then dict_set "description" MEDIUMTEXT dtype_map else dtype_map in
  if bool_decide ("pictures" ∈ df.*1)
  then dict_set "pictures" MEDIUMTEXT dtype_map else dtype_map.

(** What [to_sql] sends for one cell: a missing value is [NULL]; the
    driver refuses an infinity. *)
Definition to_sql_cell (v : scalar) : result scalar :=
  if isna v then Ok SNone
  else match v with
       | SNum (Inf _) => Raise SQLError
       | _ => Ok v
       end.

Definition to_sql_row (cols : list string) (record : dict scalar)
    : result (list scalar) :=
  rmapM (λ c, to_sql_cell (default SNone (dict_get c record))) cols.

Section to_sql.

(** The type pandas infers for a column. *)
Variable sqlalchemy_type : Series → sqltype.

(** [df.to_sql(name, if_exists='replace', index=False, dtype=dtype)]: a
    table of that name is dropped and created anew from the frame, without
    a key. pandas refuses repeated labels; MySQL refuses a table without
    columns and labels that differ in case only. *)
Definition to_sql (name : string) (dtype : dict sqltype) (df : DataFrame)
    (db : Database) : result Database :=
  if negb (bool_decide (NoDup df.*1)) then Raise ValueError
  else if bool_decide (df = []) then Raise SQLError
  else if negb (bool_decide (NoDup (str_lower <$> df.*1))) then Raise SQLError
  else
    rs ← rmapM (to_sql_row df.*1) (to_records df) ;
    Ok (dict_set name
          (mkRelation
             ((λ c, default (sqlalchemy_type c.2) (dict_get c.1 dtype)) <$> df)
             (mkTable df.*1 [] rs))
          db).

(** [ALTER TABLE name ADD PRIMARY KEY (col)]. MySQL finds the column
    without regard to case. It refuses a table it does not have or that
    has a key already, a column it cannot find, a text column, a [NULL]
    and a repeated value. *)
Definition add_primary_key (name col : string) (db : Database)
    : result Database :=
  match dict_get name db with
  | None => Raise SQLError
  | Some rel =>
      let t := body rel in
      if negb (bool_decide (primary_key t = [])) then Raise SQLError
      else
        match list_find (λ c, str_lower c = str_lower col) (columns t) with
        | None => Raise SQLError
        | Some (i, c) =>
            let keys := (λ r : list scalar, default SNone (r !! i)) <$> rows t in
            if is_text (default TEXT (coltypes rel !! i)) then Raise SQLError
            else if existsb isna keys then Raise SQLError
            else if negb (bool_decide (NoDup keys)) then Raise SQLError
            else Ok (dict_set name
                       (mkRelation (coltypes rel)
                          (mkTable (columns t) [c] (rows t)))
                       db)
        end
  end.

(** [inConnection] (lines 300 to 348) on the database [db]. *)
Definition inConnection (df : DataFrame) (table : string) (db : Database)
    : result Database :=
  let dtype_map := dtype_map df in
  db ← to_sql (str_lower table) dtype_map df db ;
  db ← (if decide (table = "pets")
        then add_primary_key "pets" "animalID" db else Ok db) ;
  if decide (table = "new_pets")
  then add_primary_key "new_pets" "animalID" db else Ok db.

(** The frame of a lookup table: the columns [id] and [value] of line
    245. *)
Definition lookup_frame (lookup : lookup_df) : DataFrame :=
  [("id", mkSeries DInt64 (int <$> lookup.*1));
   ("value", mkSeries DObject (SStr <$> lookup.*2))].

(** [uploadLookupTables] (lines 351 to 364). *)
Fixpoint uploadLookupTables (lookupDict : dict lookup_df) (db : Database)
    : result Database :=
  match lookupDict with
  | [] => Ok db
  | (col, lookup) :: lookupDict' =>
      db' ← inConnection (lookup_frame lookup) col db ;
      uploadLookupTables lookupDict' db'
  end.

End to_sql.

(** ** [dtypeConv], line 211: the first number in a text *)







(** * Proofs *)

(** ** Dictionaries *)

Section dict.
Context {V : Type}.
Implicit Types (d : dict V) (k : string) (v : V).

Lemma dict_get_set k k' v d :
  dict_get k (dict_set k' v d) = if decide (k = k') then Some v else dict_get k d.
Proof.
  induction d as [|[k0 v0] d IH]; simpl.
  - destruct (decide (k' = k)), (decide (k = k')); congruence.
  - destruct (decide (k0 = k')) as [->|Hne]; simpl.
    + destruct (decide (k' = k)), (decide (k = k')); congruence.
    + rewrite IH. destruct (decide (k0 = k)), (decide (k = k')); congruence.
Qed.

Lemma dict_get_None k d : dict_get k d = None ↔ k ∉ d.*1.
Proof.
  induction d as [|[k0 v0] d IH]; simpl.
  - split; [intros _; apply not_elem_of_nil|done].
  - rewrite not_elem_of_cons. case_decide as Hk.
    + split; [done|]. intros [? _]. congruence.
    + rewrite IH. split; [by split|by intros [_ ?]].
Qed.

Lemma dict_get_Some_elem_of k v d : dict_get k d = Some v → (k, v) ∈ d.
Proof.
  induction d as [|[k0 v0] d IH]; simpl; [done|].
  case_decide; intros ?; simplify_eq; [left|right; auto].
Qed.

Lemma dict_get_elem_of k v d :
  NoDup d.*1 → (k, v) ∈ d → dict_get k d = Some v.
Proof.
  induction d as [|[k' v'] d IH]; intros Hnd Hin; [by apply elem_of_nil in Hin|].
  apply NoDup_cons in Hnd as [Hk' Hnd]. simpl.
  apply elem_of_cons in Hin as [Heq|Hin].
  - simplify_eq. by rewrite decide_True.
  - rewrite decide_False; [by apply IH|].
    intros ->. apply Hk'. apply list_elem_of_fmap. by exists (k, v).
Qed.

Lemma dict_set_same k v d : dict_get k d = Some v → dict_set k v d = d.
Proof.
  induction d as [|[k' v'] d IH]; simpl; [done|].
  case_decide; intros Hget; simplify_eq; [done|]. by rewrite IH.
Qed.

Lemma dict_set_fresh k v d : k ∉ d.*1 → dict_set k v d = d ++ [(k, v)].
Proof.
  induction d as [|[k' v'] d IH]; simpl; [done|].
  rewrite not_elem_of_cons. intros [Hne Hk].
  rewrite decide_False by done. by rewrite IH.
Qed.

Lemma dict_set_keys k v d :
  (dict_set k v d).*1 = if decide (k ∈ d.*1) then d.*1 else d.*1 ++ [k].
Proof.
  induction d as [|[k' v'] d IH]; csimpl.
  - done.
  - destruct (decide (k' = k)) as [->|Hne]; csimpl.
    + rewrite decide_True; [done|left].
    + rewrite IH. destruct (decide (k ∈ d.*1)) as [Hin|Hnin].
      * rewrite decide_True; [done|by right].
      * rewrite decide_False; [done|]. rewrite not_elem_of_cons. naive_solver.
Qed.

Lemma dict_set_NoDup k v d : NoDup d.*1 → NoDup (dict_set k v d).*1.
Proof.
  intros Hnd. rewrite dict_set_keys. case_decide; [done|].
  apply NoDup_app. split; [done|]. split; [|apply NoDup_singleton].
  intros x Hx ->%list_elem_of_singleton. done.
Qed.

Lemma dict_of_pairs_app_NoDup (acc l : list (string * V)) :
  NoDup (acc ++ l).*1 →
  foldl (λ d kv, dict_set kv.1 kv.2 d) acc l = acc ++ l.
Proof.
  revert acc. induction l as [|[k v] l IH]; intros acc Hnd; simpl.
  - by rewrite app_nil_r.
  - rewrite dict_set_fresh.
    + rewrite IH; rewrite <- (assoc_L (++)); done.
    + rewrite fmap_app in Hnd. apply NoDup_app in Hnd as (_ & Hdisj & _).
      intros Hin. apply (Hdisj k Hin). left.
Qed.

(** A dictionary read back from its own items is itself. *)
Lemma dict_of_pairs_NoDup (l : list (string * V)) :
  NoDup l.*1 → dict_of_pairs l = l.
Proof. intros Hnd. by apply (dict_of_pairs_app_NoDup []). Qed.

Lemma dict_get_foldl_set k (acc l : list (string * V)) :
  (k ∈ l.*1 →
     ∃ v, dict_get k (foldl (λ d kv, dict_set kv.1 kv.2 d) acc l) = Some v
          ∧ (k, v) ∈ l)
  ∧ (k ∉ l.*1 →
     dict_get k (foldl (λ d kv, dict_set kv.1 kv.2 d) acc l) = dict_get k acc).
Proof.
  revert acc. induction l as [|[k0 v0] l IH]; intros acc; simpl.
  - split; [by intros ?%elem_of_nil|done].
  - destruct (IH (dict_set k0 v0 acc)) as [IH1 IH2]. split.
    + intros Hin. destruct (decide (k ∈ l.*1)) as [Hl|Hl].
      * destruct (IH1 Hl) as (v & Hv & Hvl). exists v. split; [done|by right].
      * apply elem_of_cons in Hin as [->|?]; [|done].
        exists v0. rewrite IH2, dict_get_set, decide_True by done.
        split; [done|left].
    + rewrite not_elem_of_cons. intros [Hne Hl].
      by rewrite IH2, dict_get_set, decide_False.
Qed.

Lemma dict_get_of_pairs_Some k (l : list (string * V)) :
  k ∈ l.*1 → ∃ v, dict_get k (dict_of_pairs l) = Some v ∧ (k, v) ∈ l.
Proof. apply dict_get_foldl_set. Qed.


Lemma dict_get_update k k' (f : V → V) d :
  dict_get k (dict_update k' f d)
  = if decide (k = k') then f <$> dict_get k d else dict_get k d.
Proof.
  unfold dict_update. destruct (dict_get k' d) as [v|] eqn:Hget.
  - rewrite dict_get_set. case_decide; [|done]. subst. by rewrite Hget.
  - case_decide; [|done]. subst. by rewrite Hget.
Qed.

Lemma dict_get_fmap {W} (f : V → W) k d :
  dict_get k ((λ c, (c.1, f c.2)) <$> d) = f <$> dict_get k d.
Proof.
  induction d as [|[k0 v0] d IH]; csimpl; [done|]. by case_decide.
Qed.
End dict.

(** One pass of in-place updates driven by a dictionary [l] of arguments:
    every key of [l] that is present in [d] is updated once. *)
Lemma dict_get_foldl_update {V W} (F : W → V → V) k (l : dict W) (d : dict V) :
  NoDup l.*1 →
  dict_get k (foldl (λ d e, dict_update e.1 (F e.2) d) d l)
  = match dict_get k l with
    | Some t => F t <$> dict_get k d
    | None => dict_get k d
    end.
Proof.
  revert d. induction l as [|[c t] l IH]; intros d Hnd; simpl; [done|].
  apply NoDup_cons in Hnd as [Hc Hnd]. rewrite IH by done.
  rewrite dict_get_update. destruct (decide (c = k)) as [->|Hne].
  - rewrite decide_True by done.
    by rewrite (proj2 (dict_get_None k l) Hc).
  - rewrite decide_False by done. done.
Qed.

(** ** Row selection and records *)

Section compress.
Context {A B C : Type}.
Implicit Types mask : list bool.

Lemma compress_nil_r mask : compress mask (@nil A) = [].
Proof. by destruct mask. Qed.


End compress.



Lemma coerce_id_second n0 x w r :
  n0 ≠ "animalID" →
  coerce_id ((n0, x) :: ("animalID", w) :: r)
  = (n0, x) :: ("animalID", to_numeric_coerce w) :: r.
Proof.
  intros Hne. simpl.
  destruct (decide (n0 = "animalID")); [done|].
  by destruct (decide ("animalID" = "animalID")).
Qed.




(** ** [dtypeConv] *)

Lemma rmapM_total {A B} (f : A → result B) (g : A → B) (l : list A) :
  (∀ a, a ∈ l → f a = Ok (g a)) → rmapM f l = Ok (g <$> l).
Proof.
  induction l as [|a l IH]; intros Hf; csimpl; [done|].
  rewrite Hf by left. csimpl. rewrite IH; [done|].
  intros b Hb. apply Hf. by right.
Qed.

Lemma rmapM_fmap {A B C} (f : B → result C) (h : A → B) (l : list A) :
  rmapM f (h <$> l) = rmapM (f ∘ h) l.
Proof. induction l as [|a l IH]; csimpl; [done|]. by rewrite IH. Qed.


Lemma boolMap_cell v : astype_boolean (map_dict boolMap v) = Ok (tristate v).
Proof.
  unfold map_dict, tristate, boolMap, mapper_get.
  repeat case_decide; simplify_eq; try done.
Qed.

(** C4. On every column and every cell value the boolean coercion of
    [dtypeConv] returns normally: "Yes" becomes true, "No" becomes false,
    the empty string and a missing value become unknown ([pd.NA]), and so
    does every other value. *)
Theorem dtypeConv_bool_tristate (col : Series) :
  ∃ out,
    dtypeConv_bool col = Ok (mkSeries DBoolean out)
    ∧ length out = length (values col)
    ∧ ∀ i v, values col !! i = Some v →
        (v = SStr "Yes" → out !! i = Some (SBool true))
        ∧ (v = SStr "No" → out !! i = Some (SBool false))
        ∧ (v = SStr EmptyString ∨ isna v = true → out !! i = Some SNA)
        ∧ (v ≠ SStr "Yes" → v ≠ SStr "No" → out !! i = Some SNA).
Proof.
  exists (tristate <$> values col). split; [|split].
  - unfold dtypeConv_bool.
    rewrite (rmapM_total _ tristate) by (intros; apply boolMap_cell). done.
  - by rewrite length_fmap.
  - intros i v Hv. rewrite list_lookup_fmap, Hv. csimpl. unfold tristate.
    repeat split.
    + intros ->. by rewrite decide_True.
    + intros ->. by rewrite decide_False, decide_True.
    + intros [-> | Hna]; [done|]. by destruct v.
    + intros H1 H2. by rewrite !decide_False.
Qed.





(** *** Null normalisation *)

Lemma fill_zero_replace_nan_None (col : Series) :
  sdtype (replace_nan_None col) = DFloat64 →
  fill_zero (replace_nan_None col) = replace_nan_None col.
Proof.
  unfold replace_nan_None.
  destruct (sdtype col) eqn:Hdt; try done;
    destruct (existsb isna (values col)) eqn:Hna; simpl; try done; try congruence.
  intros _. unfold fill_zero. rewrite Hdt. destruct col as [dt vs].
  simpl in *. f_equal; [done|]. clear Hdt.
  induction vs as [|v vs IH]; [done|]. simpl in Hna.
  apply orb_false_iff in Hna as [Hv Hvs]. csimpl. rewrite Hv. f_equal. by apply IH.
Qed.

(** The zero fill of lines 220 and 221 never changes a cell: by the time it
    runs, every column that still has a float dtype holds no missing
    value, and the float columns that had one are [object] columns holding
    [None]. *)
Lemma dtypeConv_nulls_no_fill (df : DataFrame) :
  NoDup df.*1 →
  dtypeConv_nulls df = (λ c, (c.1, replace_nan_None c.2)) <$> df.
Proof.
  intros Hnd. unfold dtypeConv_nulls.
  set (df1 := (λ c, (c.1, replace_nan_None c.2)) <$> df).
  assert (Hnd1 : NoDup df1.*1).
  { unfold df1. by rewrite <- list_fmap_compose. }
  assert (Hfloat : ∀ col, col ∈ float_columns df1 →
            ∃ s, dict_get col df1 = Some s ∧ fill_zero s = s).
  { intros col Hcol. unfold float_columns in Hcol.
    apply list_elem_of_omap in Hcol as ([n s] & Hin & Hsome).
    simpl in Hsome. case_decide as Hdt; simplify_eq.
    exists s. split; [by apply dict_get_elem_of|].
    unfold df1 in Hin. apply list_elem_of_fmap in Hin as ([n0 s0] & Heq & _).
    simpl in Heq. simplify_eq. by apply fill_zero_replace_nan_None. }
  induction (float_columns df1) as [|col cols IH]; simpl; [done|].
  destruct (Hfloat col) as (s & Hget & Hfill); [by left|].
  rewrite Hget, Hfill, dict_set_same by done.
  apply IH. intros c Hc. apply Hfloat. by right.
Qed.

(** C7, the code at the failing input. A float column whose raw second
    cell is the empty string is coerced to [[2.5; NaN]]; the null
    normalisation then returns it as an [object] column holding [None] in
    that cell, not zero. *)
Theorem dtypeConv_nulls_float_keeps_null :
  dtypeConv_float (mkSeries DObject [SStr "2.5"; SStr EmptyString])
  = Ok (mkSeries DFloat64 [SNum (Dec 25 (-1)); SNaN])
  ∧ dtypeConv_nulls [("col23", mkSeries DFloat64 [SNum (Dec 25 (-1)); SNaN])]
    = [("col23", mkSeries DObject [SNum (Dec 25 (-1)); SNone])].
Proof. split; by vm_compute. Qed.

(** ** [schemaConv] *)

Lemma sorted_Permutation l : sorted l ≡ₚ l.
Proof. apply merge_sort_Permutation. Qed.

Lemma sorted_Sorted l : Sorted String.le (sorted l).
Proof. apply (Sorted_merge_sort String.le). Qed.

Lemma sorted_length l : length (sorted l) = length l.
Proof. apply Permutation_length, sorted_Permutation. Qed.

Lemma make_lookup_Some categories :
  5 < length categories →
  ∃ lookup,
    make_lookup categories = Some lookup
    ∧ lookup.*1 = seqZ 1 (Z.of_nat (length categories))
    ∧ lookup.*2 = sorted categories.
Proof.
  intros Hlen. unfold make_lookup, range. rewrite sorted_length.
  destruct (Nat.ltb_spec 5 (length categories)) as [_|?]; [|lia].
  eexists. split; [done|].
  replace (Z.of_nat (length categories) + 1 - 1)%Z
    with (Z.of_nat (length categories)) by lia.
  split.
  - apply fst_zip. rewrite length_seqZ, sorted_length. lia.
  - apply snd_zip. rewrite length_seqZ, sorted_length. lia.
Qed.

Lemma make_lookup_None categories :
  length categories ≤ 5 → make_lookup categories = None.
Proof.
  intros Hlen. unfold make_lookup. rewrite sorted_length.
  by destruct (Nat.ltb_spec 5 (length categories)) as [?|_]; [lia|].
Qed.

Lemma build_lookupTables_step (df : DataFrame) k cols (acc : dict lookup_df) :
  dict_get k
    (foldl (λ lookupTables col,
              match dict_get col df with
              | Some s =>
                  match sdtype s with
                  | DCategory categories =>
                      match make_lookup categories with
                      | Some lookup => dict_set col lookup lookupTables
                      | None => lookupTables
                      end
                  | _ => lookupTables
                  end
              | None => lookupTables
              end) acc cols)
  = if decide (k ∈ cols)
    then match table_for df k with Some t => Some t | None => dict_get k acc end
    else dict_get k acc.
Proof.
  revert acc. induction cols as [|c cols IH]; intros acc; simpl.
  - done.
  - rewrite IH. clear IH.
    assert (Hstep : ∀ acc',
      acc' = match table_for df c with Some t => dict_set c t acc | None => acc end →
      dict_get k acc'
      = if decide (k = c)
        then match table_for df k with Some t => Some t | None => dict_get k acc end
        else dict_get k acc).
    { intros acc' ->. destruct (decide (k = c)) as [->|Hne].
      - destruct (table_for df c); [|done]. by rewrite dict_get_set, decide_True.
      - destruct (table_for df c); [|done]. by rewrite dict_get_set, decide_False. }
    rewrite (Hstep _); cycle 1.
    { unfold table_for. destruct (dict_get c df) as [s|]; [|done].
      destruct (sdtype s); try done. }
    destruct (decide (k ∈ c :: cols)) as [Hin'|Hnin'];
      destruct (decide (k ∈ cols)) as [Hin|Hnin];
      destruct (decide (k = c)) as [->|Hne]; try done.
    + by destruct (table_for df c).
    + apply elem_of_cons in Hin' as [?|?]; done.
    + exfalso. apply Hnin', elem_of_cons. by right.
    + exfalso. apply Hnin', elem_of_cons. by right.
    + exfalso. apply Hnin', elem_of_cons. by left.
Qed.

Lemma build_lookupTables_NoDup_aux (df : DataFrame) cols (acc : dict lookup_df) :
  NoDup acc.*1 →
  NoDup (foldl (λ lookupTables col,
              match dict_get col df with
              | Some s =>
                  match sdtype s with
                  | DCategory categories =>
                      match make_lookup categories with
                      | Some lookup => dict_set col lookup lookupTables
                      | None => lookupTables
                      end
                  | _ => lookupTables
                  end
              | None => lookupTables
              end) acc cols).*1.
Proof.
  revert acc. induction cols as [|c cols IH]; intros acc Hnd; simpl; [done|].
  apply IH. destruct (dict_get c df) as [s|]; [|done].
  destruct (sdtype s); try done.
  destruct (make_lookup _); [|done]. by apply dict_set_NoDup.
Qed.

Lemma build_lookupTables_NoDup df : NoDup (build_lookupTables df).*1.
Proof. apply build_lookupTables_NoDup_aux. constructor. Qed.

Lemma elem_of_catList (df : DataFrame) name s categories :
  (name, s) ∈ df → sdtype s = DCategory categories → name ∈ catList df.
Proof.
  intros Hin Hdt. apply list_elem_of_omap. exists (name, s).
  split; [done|]. simpl. by rewrite Hdt.
Qed.

Lemma build_lookupTables_get (df : DataFrame) name s categories :
  NoDup df.*1 → (name, s) ∈ df → sdtype s = DCategory categories →
  dict_get name (build_lookupTables df) = make_lookup categories.
Proof.
  intros Hnd Hin Hdt. unfold build_lookupTables.
  rewrite build_lookupTables_step.
  rewrite decide_True by (by eapply elem_of_catList).
  unfold table_for. rewrite (dict_get_elem_of name s df Hnd Hin), Hdt.
  by destruct (make_lookup categories).
Qed.

Lemma values_Series_map mapping s :
  values (Series_map mapping s) = map_mapping mapping <$> values s.
Proof.
  unfold Series_map. destruct (sdtype s); try done.
  destruct (mapM _ _); [|done]. by case_bool_decide.
Qed.

Lemma mapping_of_Some (lookup : lookup_df) c :
  c ∈ lookup.*2 →
  ∃ id, dict_get c (mapping_of lookup) = Some id ∧ (id, c) ∈ lookup.
Proof.
  intros Hc. destruct (dict_get_of_pairs_Some c ((λ r, (r.2, r.1)) <$> lookup))
    as (id & Hget & Hin).
  - by rewrite <- list_fmap_compose.
  - exists id. split; [done|].
    apply list_elem_of_fmap in Hin as ([i v] & Heq & Hin). by simplify_eq/=.
Qed.


(** C2. For a categorical column of a frame with distinct labels: with
    more than 5 categories, [schemaConv] builds a lookup table whose ids are
    exactly 1..N, without repetition, attached to the categories in sorted
    order, and replaces every value of the column by its id (a missing cell
    stays missing); with at most 5 categories it builds no table and
    returns the column as it was. *)
Theorem schemaConv_surrogate_ids (df : DataFrame) name (s : Series) categories :
  NoDup df.*1 → (name, s) ∈ df →
  sdtype s = DCategory categories → NoDup categories →
  (∀ v, v ∈ values s → isna v = true ∨ ∃ c, v = SStr c ∧ c ∈ categories) →
  (5 < length categories →
     ∃ lookup out,
       dict_get name (schemaConv df).1.2 = Some lookup
       ∧ lookup.*1 = seqZ 1 (Z.of_nat (length categories))
       ∧ NoDup lookup.*1
       ∧ lookup.*2 = sorted categories
       ∧ Sorted String.le lookup.*2
       ∧ lookup.*2 ≡ₚ categories
       ∧ dict_get name (schemaConv df).1.1 = Some (mkSeries DInt32 out)
       ∧ length out = length (values s)
       ∧ ∀ i v, values s !! i = Some v →
           (isna v = true → out !! i = Some SNA)
           ∧ (∀ c, v = SStr c →
                ∃ id, out !! i = Some (int id) ∧ (id, c) ∈ lookup))
  ∧ (length categories ≤ 5 →
       dict_get name (schemaConv df).1.2 = None
       ∧ dict_get name (schemaConv df).1.1 = Some s).
Proof.
  intros Hnd Hin Hdt Hcats Hwf. simpl.
  pose proof (build_lookupTables_get df name s categories Hnd Hin Hdt) as Hget.
  pose proof (dict_get_elem_of name s df Hnd Hin) as Hcol.
  split.
  - intros Hlen.
    destruct (make_lookup_Some categories Hlen) as (lookup & Hmk & Hids & Hvals).
    exists lookup.
    exists ((λ v, if isna v then SNA else v)
              <$> (map_mapping (mapping_of lookup) <$> values s)).
    rewrite Hget, Hmk. split; [done|]. split; [done|].
    split; [rewrite Hids; apply NoDup_seqZ|]. split; [done|].
    split; [rewrite Hvals; apply sorted_Sorted|].
    split; [rewrite Hvals; apply sorted_Permutation|].
    split; [|split].
    + unfold convert_columns.
      rewrite (dict_get_foldl_update
                 (λ t s, astype_Int32 (Series_map (mapping_of t) s)))
        by apply build_lookupTables_NoDup.
      rewrite Hget, Hmk, Hcol. csimpl. unfold astype_Int32.
      by rewrite values_Series_map.
    + by rewrite !length_fmap.
    + intros i v Hv. rewrite !list_lookup_fmap, Hv. csimpl. split.
      * intros Hna. by destruct v.
      * intros c ->. simpl.
        destruct (Hwf (SStr c)) as [?|(c' & [= <-] & Hc)]; [|done|].
        { apply list_elem_of_lookup. by exists i. }
        destruct (mapping_of_Some lookup c) as (id & Hid & Hidc).
        { rewrite Hvals. by rewrite sorted_Permutation. }
        exists id. by rewrite Hid.
  - intros Hlen. rewrite Hget, make_lookup_None by done. split; [done|].
    unfold convert_columns.
    rewrite (dict_get_foldl_update
                 (λ t s, astype_Int32 (Series_map (mapping_of t) s)))
        by apply build_lookupTables_NoDup.
    by rewrite Hget, make_lookup_None.
Qed.

Lemma schemaConv_surrogate_ids_witness :
  ∃ lookup out,
    dict_get "species" (schemaConv [("species", species6)]).1.2 = Some lookup
    ∧ lookup.*1 = seqZ 1 6
    ∧ dict_get "species" (schemaConv [("species", species6)]).1.1
      = Some (mkSeries DInt32 out).
Proof.
  destruct (schemaConv_surrogate_ids [("species", species6)] "species" species6
              ["Bird"; "Cat"; "Dog"; "Fish"; "Rabbit"; "Turtle"])
    as [Hmany _].
  - by compute_done.
  - apply list_elem_of_singleton. reflexivity.
  - by vm_compute.
  - by compute_done.
  - intros v Hv. right.
    assert (Hcases : v ∈ SStr <$> ["Dog"; "Cat"; "Dog"; "Bird"; "Cat"; "Dog";
                                    "Fish"; "Rabbit"; "Turtle"]) by exact Hv.
    apply list_elem_of_fmap in Hcases as (c & -> & Hc). exists c. split; [done|].
    repeat (apply elem_of_cons in Hc as [->|Hc]; [by compute_done|]).
    by apply elem_of_nil in Hc.
  - destruct Hmany as (lookup & out & H1 & H2 & _ & _ & _ & _ & H3 & _).
    + simpl. lia.
    + exists lookup, out. by repeat split.
Defined.

(** *** The [species] scenario *)

(** C9 as stated fails: the eight values hold 5 distinct ones, which does
    not exceed the threshold, so [schemaConv] builds no lookup table and
    the column keeps its literals. *)
Lemma schemaConv_species_no_lookup :
  (schemaConv [("species", species)]).1.2 = []
  ∧ dict_get "species" (schemaConv [("species", species)]).1.1
    = Some (mkSeries (DCategory ["Bird"; "Cat"; "Dog"; "Fish"; "Rabbit"])
                     species_values).
Proof. split; by vm_compute. Qed.

(** C9 (amended). The eight values have the 5 categories Bird, Cat, Dog,
    Fish, Rabbit: no lookup table is built and the column is returned
    unchanged. With a sixth distinct value the table is built in
    alphabetical order, Bird=1, Cat=2, Dog=3, Fish=4, Rabbit=5, Turtle=6,
    and the column holds the id of each row. *)
Theorem schemaConv_species_scenario :
  schemaConv [("species", species)]
  = ([("species", species)], [], dumps (JObj []))
  ∧ (schemaConv [("species", species6)]).1.2
    = [("species", [(1, "Bird"); (2, "Cat"); (3, "Dog"); (4, "Fish");
                    (5, "Rabbit"); (6, "Turtle")]%Z)]
  ∧ (schemaConv [("species", species6)]).1.1
    = [("species", mkSeries DInt32 (int <$> [3; 2; 3; 1; 2; 3; 4; 5; 6]%Z))].
Proof. repeat split; by vm_compute. Qed.

(** ** [schemaConv2] *)

Lemma dict_get_foldl_update_keys {V W} (g : string → option W) (F : W → V → V)
    k cols (d : dict V) :
  NoDup cols →
  dict_get k
    (foldl (λ d col,
              match g col with
              | Some t => dict_update col (F t) d
              | None => d
              end) d cols)
  = if decide (k ∈ cols)
    then match g k with Some t => F t <$> dict_get k d | None => dict_get k d end
    else dict_get k d.
Proof.
  revert d. induction cols as [|c cols IH]; intros d Hnd; simpl; [done|].
  apply NoDup_cons in Hnd as [Hc Hnd]. rewrite IH by done. clear IH.
  assert (Hstep : dict_get k (match g c with
                              | Some t => dict_update c (F t) d
                              | None => d
                              end)
                  = if decide (k = c)
                    then match g k with
                         | Some t => F t <$> dict_get k d
                         | None => dict_get k d
                         end
                    else dict_get k d).
  { destruct (decide (k = c)) as [->|Hne].
    - destruct (g c); [|done]. by rewrite dict_get_update, decide_True.
    - destruct (g c); [|done]. by rewrite dict_get_update, decide_False. }
  rewrite Hstep.
  destruct (decide (k ∈ c :: cols)) as [Hin'|Hnin'];
    destruct (decide (k ∈ cols)) as [Hin|Hnin];
    destruct (decide (k = c)) as [->|Hne]; try done;
    try (exfalso; apply Hnin', elem_of_cons; auto; fail);
    try (apply elem_of_cons in Hin' as [?|?]; done).
  all: by destruct (g c).
Qed.

Lemma catList_sublist (df : DataFrame) : catList df `sublist_of` df.*1.
Proof.
  induction df as [|[n s] df IH]; csimpl; [done|].
  destruct (sdtype s); csimpl; by constructor.
Qed.

Lemma catList_NoDup (df : DataFrame) : NoDup df.*1 → NoDup (catList df).
Proof. intros Hnd. eapply sublist_NoDup; [done|apply catList_sublist]. Qed.

Lemma length_replace_nan_None col :
  length (values (replace_nan_None col)) = length (values col).
Proof.
  unfold replace_nan_None. destruct (sdtype col); try done;
    destruct (existsb isna (values col)); simpl; by rewrite ?length_fmap.
Qed.

Lemma lookup_replace_nan_None col i v :
  values col !! i = Some v →
  ∃ v', values (replace_nan_None col) !! i = Some v'
        ∧ (isna v = false → v' = v)
        ∧ (isna v = true → isna v' = true).
Proof.
  intros Hv. unfold replace_nan_None.
  destruct (sdtype col); try (by exists v);
    destruct (existsb isna (values col)); simpl; try (by exists v);
    rewrite list_lookup_fmap, Hv; csimpl;
    (eexists; split; [done|]); destruct (isna v) eqn:Hna; by split.
Qed.



(** ** JSON: decoding an encoded document *)

Lemma parse_chars_escape c tail :
  parse_chars (escape_char c ++ tail)
  = match parse_chars tail with
    | Some (cs, rest) => Some (c :: cs, rest)
    | None => None
    end.
Proof. destruct c as [[] [] [] [] [] [] [] []]; reflexivity. Qed.

Lemma parse_chars_escaped l rest :
  parse_chars (flat_map escape_char l ++ "034"%char :: rest) = Some (l, rest).
Proof.
  induction l as [|c l IH]; [done|].
  change (flat_map escape_char (c :: l))
    with (escape_char c ++ flat_map escape_char l).
  rewrite <- List.app_assoc, parse_chars_escape, IH. done.
Qed.

Lemma dump_string_cons s rest :
  dump_string s ++ rest
  = "034"%char
    :: flat_map escape_char (String.list_ascii_of_string s) ++ "034"%char :: rest.
Proof. unfold dump_string. simpl. by rewrite <- List.app_assoc. Qed.

Lemma parse_atom_string s rest :
  parse_atom (dump_string s ++ rest) = Some (JStr s, rest).
Proof.
  rewrite dump_string_cons. unfold parse_atom.
  rewrite parse_chars_escaped.
  by rewrite String.string_of_list_ascii_of_string.
Qed.

Lemma read_uint_text u rest :
  value_end rest = true → read_uint (uint_text u ++ rest) = (u, rest).
Proof.
  intros Hend. induction u as [|u IH|u IH|u IH|u IH|u IH|u IH|u IH|u IH|u IH|u IH];
    simpl; rewrite ?IH; try done.
  destruct rest as [|c rest]; [done|]. simpl in *.
  destruct (digit_cons c); [|done]. by rewrite bool_decide_true in Hend.
Qed.

Lemma unorm_canonical u : Decimal.unorm u = u → canonical u.
Proof.
  intros Hu. unfold Decimal.unorm in Hu.
  destruct (Decimal.nzhead u) eqn:Hnz;
    try (by destruct (DecimalFacts.nzhead_nonzero _ _ Hnz));
    subst u; (split; [done|]); intros u' Heq; try done.
  by injection Heq as <-.
Qed.

Lemma to_int_norm n : Decimal.norm (Z.to_int n) = Z.to_int n.
Proof. by rewrite <- DecimalZ.to_of, DecimalZ.of_to. Qed.

Lemma to_int_canonical n :
  match Z.to_int n with
  | Decimal.Pos u | Decimal.Neg u => canonical u
  end.
Proof.
  pose proof (to_int_norm n) as Hn. destruct (Z.to_int n) as [u|u]; simpl in Hn.
  - apply unorm_canonical. by injection Hn.
  - destruct (Decimal.nzhead u) eqn:Hnz; try done;
      try (by destruct (DecimalFacts.nzhead_nonzero _ _ Hnz));
      injection Hn as <-; by split.
Qed.

Lemma parse_int_canonical neg u rest :
  canonical u → value_end rest = true →
  parse_int neg (uint_text u ++ rest)
  = Some (JInt (Z.of_int (if neg then Decimal.Neg u else Decimal.Pos u)), rest).
Proof.
  intros [Hnil Hzero] Hend. unfold parse_int. rewrite read_uint_text by done.
  assert (Htail : float_tail rest = false).
  { destruct rest as [|c rest]; [done|]. simpl in Hend.
    apply andb_true_iff in Hend as [_ Hend]. by apply negb_true_iff in Hend. }
  destruct u as [|u|u|u|u|u|u|u|u|u|u]; try done; rewrite ?Htail; try done.
  by rewrite (Hzero u eq_refl).
Qed.

Lemma parse_atom_digit c s :
  is_Some (digit_cons c) → parse_atom (c :: s) = parse_int false (c :: s).
Proof.
  destruct c as [[] [] [] [] [] [] [] []]; intros [d Hd]; try done.
Qed.

Lemma uint_text_digit u :
  u ≠ Decimal.Nil → ∃ c tl, uint_text u = c :: tl ∧ is_Some (digit_cons c).
Proof. destruct u; intros Hu; try done; by do 2 eexists. Qed.

Lemma parse_atom_int n rest :
  value_end rest = true → parse_atom (dump_int n ++ rest) = Some (JInt n, rest).
Proof.
  intros Hend. pose proof (to_int_canonical n) as Hcan.
  pose proof (DecimalZ.of_to n) as Hn. unfold dump_int.
  destruct (Z.to_int n) as [u|u].
  - destruct (uint_text_digit u (proj1 Hcan)) as (c & tl & Hu & Hc).
    pose proof (parse_int_canonical false u rest Hcan Hend) as Hp.
    rewrite Hu in Hp |- *. rewrite <- List.app_comm_cons in Hp |- *.
    rewrite parse_atom_digit by done. by rewrite Hp, Hn.
  - change (parse_atom (("-"%char :: uint_text u) ++ rest))
      with (parse_int true (uint_text u ++ rest)).
    by rewrite parse_int_canonical, Hn.
Qed.

Lemma starts_value_dump_int n rest : starts_value (dump_int n ++ rest) = true.
Proof.
  pose proof (to_int_canonical n) as Hcan. unfold dump_int.
  destruct (Z.to_int n) as [u|u]; [|done].
  by destruct u; destruct Hcan.
Qed.

(** *** Unfolding the decoder one step *)

Lemma parse_value_S fuel s :
  parse_value (S fuel) s
  = match skip_ws s with
    | "["%char :: r =>
        match skip_ws r with
        | "]"%char :: rest => Some (JArr [], rest)
        | _ =>
            match parse_items fuel r with
            | Some (items, rest) => Some (JArr items, rest)
            | None => None
            end
        end
    | "{"%char :: r =>
        match skip_ws r with
        | "}"%char :: rest => Some (JObj [], rest)
        | _ =>
            match parse_members fuel r with
            | Some (members, rest) => Some (JObj members, rest)
            | None => None
            end
        end
    | s' => parse_atom s'
    end.
Proof. reflexivity. Qed.

Lemma parse_items_S fuel s :
  parse_items (S fuel) s
  = match parse_value fuel s with
    | Some (v, r) =>
        match skip_ws r with
        | ","%char :: r' =>
            match parse_items fuel r' with
            | Some (vs, rest) => Some (v :: vs, rest)
            | None => None
            end
        | "]"%char :: rest => Some ([v], rest)
        | _ => None
        end
    | None => None
    end.
Proof. reflexivity. Qed.

Lemma parse_members_S fuel s :
  parse_members (S fuel) s
  = match skip_ws s with
    | "034"%char :: r =>
        match parse_chars r with
        | Some (k, r1) =>
            match skip_ws r1 with
            | ":"%char :: r2 =>
                match parse_value fuel r2 with
                | Some (v, r3) =>
                    match skip_ws r3 with
                    | ","%char :: r4 =>
                        match parse_members fuel r4 with
                        | Some (ms, rest) =>
                            Some ((String.string_of_list_ascii k, v) :: ms, rest)
                        | None => None
                        end
                    | "}"%char :: rest =>
                        Some ([(String.string_of_list_ascii k, v)], rest)
                    | _ => None
                    end
                | None => None
                end
            | _ => None
            end
        | None => None
        end
    | _ => None
    end.
Proof. reflexivity. Qed.

Lemma parse_value_space fuel s :
  parse_value fuel (" "%char :: s) = parse_value fuel s.
Proof. by destruct fuel. Qed.

Lemma parse_items_space fuel s :
  parse_items fuel (" "%char :: s) = parse_items fuel s.
Proof.
  destruct fuel; [done|]. by rewrite !parse_items_S, parse_value_space.
Qed.

(** A value that is not an array or an object goes to [parse_atom]. *)
Lemma parse_value_atom fuel s :
  atom_start s = true → parse_value (S fuel) s = parse_atom s.
Proof.
  rewrite parse_value_S. destruct s as [|c s]; [done|].
  destruct c as [[] [] [] [] [] [] [] []]; intros Hs; try done.
Qed.

Lemma atom_start_dump_int n rest : atom_start (dump_int n ++ rest) = true.
Proof.
  pose proof (to_int_canonical n) as Hcan. unfold dump_int.
  destruct (Z.to_int n) as [u|u]; [|done].
  by destruct u; destruct Hcan.
Qed.

Lemma skip_ws_starts_value s : starts_value s = true → skip_ws s = s.
Proof.
  destruct s as [|c s]; [done|]. simpl. by destruct (is_ws c).
Qed.

Lemma not_closing_bracket {A} (s : text) (a : text → A) (b : A) :
  starts_value s = true →
  match skip_ws s with "]"%char :: rest => a rest | _ => b end = b.
Proof.
  intros Hs. rewrite skip_ws_starts_value by done.
  destruct s as [|c s]; [done|].
  destruct c as [[] [] [] [] [] [] [] []]; try done.
Qed.

(** *** Induction on documents *)

Lemma json_ind' (P : json → Prop) :
  P JNull → (∀ b, P (JBool b)) → (∀ n, P (JInt n)) → (∀ s, P (JStr s)) →
  (∀ items, Forall P items → P (JArr items)) →
  (∀ members, Forall (λ kv, P kv.2) members → P (JObj members)) →
  ∀ j, P j.
Proof.
  intros Hnull Hbool Hint Hstr Harr Hobj.
  refine (fix IH (j : json) : P j :=
            match j with
            | JNull => Hnull
            | JBool b => Hbool b
            | JInt n => Hint n
            | JStr s => Hstr s
            | JArr items =>
                Harr items
                  ((fix go (l : list json) : Forall P l :=
                      match l with
                      | [] => @List.Forall_nil _ _
                      | x :: l' => @List.Forall_cons _ _ x l' (IH x) (go l')
                      end) items)
            | JObj members =>
                Hobj members
                  ((fix go (l : list (string * json)) : Forall (λ kv, P kv.2) l :=
                      match l with
                      | [] => @List.Forall_nil _ _
                      | kv :: l' => @List.Forall_cons _ _ kv l' (IH kv.2) (go l')
                      end) members)
            end).
Qed.

Lemma fuel_of_arr items : fuel_of (JArr items) = S (items_fuel items).
Proof.
  reflexivity.
Qed.

Lemma fuel_of_obj members : fuel_of (JObj members) = S (members_fuel members).
Proof.
  reflexivity.
Qed.

Lemma fuel_of_pos j : 0 < fuel_of j.
Proof. destruct j; simpl; lia. Qed.

Lemma dump_arr_app items rest :
  dump (JArr items) ++ rest
  = "["%char :: join (chars ", ") (map dump items) ++ "]"%char :: rest.
Proof. simpl. by rewrite <- List.app_assoc. Qed.

Lemma dump_obj_app members rest :
  dump (JObj members) ++ rest
  = "{"%char
    :: join (chars ", ")
         (map (λ kv, dump_string kv.1 ++ chars ": " ++ dump kv.2) members)
    ++ "}"%char :: rest.
Proof. simpl. by rewrite <- List.app_assoc. Qed.

Lemma join_cons2 (sep p q : text) ps :
  join sep (p :: q :: ps) = p ++ sep ++ join sep (q :: ps).
Proof. done. Qed.

Lemma starts_value_dump j rest : starts_value (dump j ++ rest) = true.
Proof.
  destruct j as [|[]|n|s|items|members]; try done.
  apply starts_value_dump_int.
Qed.

Lemma parse_items_dump l :
  Forall decodes l → l ≠ [] →
  ∀ fuel rest, items_fuel l ≤ fuel →
    parse_items fuel (join (chars ", ") (map dump l) ++ "]"%char :: rest)
    = Some (l, rest).
Proof.
  induction l as [|x l IH]; [done|]. intros HP _ fuel rest Hfuel.
  apply Forall_cons in HP as [Hx Hl]. simpl in Hfuel.
  destruct fuel as [|fuel]; [lia|]. rewrite parse_items_S.
  destruct l as [|y l].
  - simpl join. rewrite (Hx fuel) by (done || lia). done.
  - rewrite map_cons, map_cons, join_cons2, <- !List.app_assoc, <- map_cons.
    rewrite (Hx fuel) by (done || lia).
    change (skip_ws (chars ", " ++ join (chars ", ") (map dump (y :: l))
                     ++ "]"%char :: rest))
      with (","%char :: " "%char
            :: join (chars ", ") (map dump (y :: l)) ++ "]"%char :: rest).
    cbv iota beta. rewrite parse_items_space, IH; [done..|]. lia.
Qed.

Lemma parse_members_key fuel k s :
  parse_members (S fuel) (dump_string k ++ chars ": " ++ s)
  = match parse_value fuel s with
    | Some (v, r3) =>
        match skip_ws r3 with
        | ","%char :: r4 =>
            match parse_members fuel r4 with
            | Some (ms, rest) => Some ((k, v) :: ms, rest)
            | None => None
            end
        | "}"%char :: rest => Some ([(k, v)], rest)
        | _ => None
        end
    | None => None
    end.
Proof.
  rewrite parse_members_S, dump_string_cons.
  cbn [skip_ws is_ws]. rewrite parse_chars_escaped.
  change (chars ": " ++ s) with (":"%char :: " "%char :: s).
  cbn [skip_ws is_ws]. rewrite parse_value_space.
  by rewrite String.string_of_list_ascii_of_string.
Qed.

Lemma parse_members_dump l :
  Forall (λ kv, decodes kv.2) l → l ≠ [] →
  ∀ fuel rest, members_fuel l ≤ fuel →
    parse_members fuel
      (join (chars ", ")
         (map (λ kv, dump_string kv.1 ++ chars ": " ++ dump kv.2) l)
       ++ "}"%char :: rest)
    = Some (l, rest).
Proof.
  set (F := λ kv : string * json, dump_string kv.1 ++ chars ": " ++ dump kv.2).
  induction l as [|[k v] l IH]; [done|]. intros HP _ fuel rest Hfuel.
  apply Forall_cons in HP as [Hv Hl]. simpl in Hv, Hfuel.
  destruct fuel as [|fuel]; [lia|].
  destruct l as [|kv l].
  - change (join (chars ", ") (map F [(k, v)]))
      with (dump_string k ++ chars ": " ++ dump v).
    rewrite <- !List.app_assoc, parse_members_key.
    rewrite (Hv fuel) by (done || lia). done.
  - rewrite map_cons, map_cons, join_cons2, <- map_cons.
    change (F (k, v)) with (dump_string k ++ chars ": " ++ dump v).
    rewrite <- !List.app_assoc, parse_members_key.
    rewrite (Hv fuel) by (done || lia).
    change (skip_ws (chars ", " ++ join (chars ", ") (map F (kv :: l))
                     ++ "}"%char :: rest))
      with (","%char :: " "%char
            :: join (chars ", ") (map F (kv :: l)) ++ "}"%char :: rest).
    cbv iota beta.
    assert (Hsp : ∀ f s, parse_members f (" "%char :: s) = parse_members f s).
    { intros [|f] s; [done|]. by rewrite !parse_members_S. }
    rewrite Hsp, IH; [done..|]. lia.
Qed.

Lemma not_closing_brace {A} (s : text) (a : text → A) (b : A) :
  starts_value s = true →
  match skip_ws s with "}"%char :: rest => a rest | _ => b end = b.
Proof.
  intros Hs. rewrite skip_ws_starts_value by done.
  destruct s as [|c s]; [done|].
  destruct c as [[] [] [] [] [] [] [] []]; try done.
Qed.

Lemma starts_value_join_dump x l tail :
  starts_value (join (chars ", ") (map dump (x :: l)) ++ tail) = true.
Proof.
  destruct l as [|y l].
  - apply starts_value_dump.
  - rewrite map_cons, map_cons, join_cons2, <- !List.app_assoc.
    apply starts_value_dump.
Qed.

(** Every document is read back from its text. *)
Lemma parse_value_dump j : decodes j.
Proof.
  induction j as [|b|n|s|items IH|members IH] using json_ind';
    intros fuel rest Hfuel Hend.
  - destruct fuel; [simpl in Hfuel; lia|]. reflexivity.
  - destruct fuel; [simpl in Hfuel; lia|]. by destruct b.
  - destruct fuel; [simpl in Hfuel; lia|].
    change (dump (JInt n)) with (dump_int n).
    rewrite parse_value_atom by apply atom_start_dump_int.
    by apply parse_atom_int.
  - destruct fuel; [simpl in Hfuel; lia|].
    change (dump (JStr s)) with (dump_string s).
    rewrite parse_value_atom by (by rewrite dump_string_cons).
    apply parse_atom_string.
  - rewrite fuel_of_arr in Hfuel. destruct fuel; [lia|].
    rewrite dump_arr_app, parse_value_S. cbn [skip_ws is_ws].
    destruct items as [|x l]; [done|].
    rewrite not_closing_bracket by apply starts_value_join_dump.
    rewrite parse_items_dump; [done..|]. lia.
  - rewrite fuel_of_obj in Hfuel. destruct fuel; [lia|].
    rewrite dump_obj_app, parse_value_S. cbn [skip_ws is_ws].
    destruct members as [|[k v] l]; [done|].
    rewrite not_closing_brace.
    + rewrite parse_members_dump; [done..|]. lia.
    + destruct l as [|kv l].
      * cbn [map join fst snd]. by rewrite <- !List.app_assoc, dump_string_cons.
      * rewrite map_cons, map_cons, join_cons2. cbn [fst snd].
        by rewrite <- !List.app_assoc, dump_string_cons.
Qed.

Lemma length_dump_pos j : 0 < length (dump j).
Proof.
  destruct j as [|[]|n|s|items|members]; simpl; try lia.
  pose proof (to_int_canonical n) as Hcan. unfold dump_int.
  destruct (Z.to_int n) as [u|u]; [|simpl; lia].
  destruct u; destruct Hcan; simpl; try done; lia.
Qed.

Lemma items_fuel_length l :
  Forall (λ j, fuel_of j ≤ length (dump j)) l →
  items_fuel l ≤ length (join (chars ", ") (map dump l)) + 1.
Proof.
  induction l as [|x l IH]; intros Hall; [simpl; lia|].
  apply Forall_cons in Hall as [Hx Hl]. specialize (IH Hl).
  destruct l as [|y l].
  - simpl in *. lia.
  - rewrite map_cons, map_cons, join_cons2, <- map_cons, !length_app.
    change (items_fuel (x :: y :: l)) with (S (fuel_of x) + items_fuel (y :: l)).
    simpl length at 2. lia.
Qed.

Lemma members_fuel_length l :
  Forall (λ kv : string * json, fuel_of kv.2 ≤ length (dump kv.2)) l →
  members_fuel l
  ≤ length (join (chars ", ")
              (map (λ kv, dump_string kv.1 ++ chars ": " ++ dump kv.2) l)) + 1.
Proof.
  set (F := λ kv : string * json, dump_string kv.1 ++ chars ": " ++ dump kv.2).
  induction l as [|[k v] l IH]; intros Hall; [simpl; lia|].
  apply Forall_cons in Hall as [Hx Hl]. specialize (IH Hl). simpl in Hx.
  assert (HF : fuel_of v ≤ length (F (k, v))).
  { unfold F. rewrite !length_app. simpl. lia. }
  destruct l as [|y l].
  - change (join (chars ", ") (map F [(k, v)])) with (F (k, v)).
    simpl members_fuel. lia.
  - rewrite map_cons, map_cons, join_cons2, <- map_cons, !length_app.
    change (members_fuel ((k, v) :: y :: l))
      with (S (fuel_of v) + members_fuel (y :: l)).
    simpl length at 2. lia.
Qed.

Lemma fuel_of_length j : fuel_of j ≤ length (dump j).
Proof.
  induction j as [|b|n|s|items IH|members IH] using json_ind'.
  - simpl. lia.
  - destruct b; simpl; lia.
  - apply (length_dump_pos (JInt n)).
  - apply (length_dump_pos (JStr s)).
  - rewrite fuel_of_arr. pose proof (items_fuel_length items IH).
    change (dump (JArr items))
      with ("["%char :: join (chars ", ") (map dump items) ++ ["]"%char]).
    cbn [length]. rewrite length_app. cbn [length]. lia.
  - rewrite fuel_of_obj. pose proof (members_fuel_length members IH).
    change (dump (JObj members))
      with ("{"%char
            :: join (chars ", ")
                 (map (λ kv, dump_string kv.1 ++ chars ": " ++ dump kv.2) members)
            ++ ["}"%char]).
    cbn [length]. rewrite length_app. cbn [length]. lia.
Qed.

(** [json.loads(json.dumps(j))] is [j]. *)
Lemma loads_dumps j : loads (dumps j) = Some j.
Proof.
  unfold loads, dumps, chars. rewrite String.list_ascii_of_string_of_list_ascii.
  pose proof (parse_value_dump j (length (dump j)) [] (fuel_of_length j) eq_refl)
    as Hd.
  rewrite List.app_nil_r in Hd. by rewrite Hd.
Qed.

(** ** The mapping contract *)

Lemma record_row_to_dict (r : Z * string) :
  record_row (JObj [("id", JInt r.1); ("value", JStr r.2)]) = Ok r.
Proof. by destruct r. Qed.

Lemma DataFrame_of_to_dict_records (lookup : lookup_df) :
  DataFrame_of_records (to_dict_records lookup) = Ok lookup.
Proof.
  unfold DataFrame_of_records, to_dict_records.
  rewrite rmapM_fmap, (rmapM_total _ id).
  - by rewrite list_fmap_id.
  - intros r _. apply record_row_to_dict.
Qed.

Lemma load_dumps_lookupTables (lookupTables : dict lookup_df) :
  NoDup lookupTables.*1 →
  load_lookupTables (Some (dumps (serializable_lookup lookupTables)))
  = Ok lookupTables.
Proof.
  intros Hnd. unfold load_lookupTables, serializable_lookup.
  rewrite loads_dumps, dict_of_pairs_NoDup.
  - rewrite rmapM_fmap, (rmapM_total _ id).
    + by rewrite list_fmap_id.
    + intros [col t] _. unfold compose. cbn [fst snd].
      by rewrite DataFrame_of_to_dict_records.
  - by rewrite <- list_fmap_compose.
Qed.

(** The contract [schemaConv] writes is read back by [schemaConv2] as the
    lookup tables [schemaConv] returned. *)
Lemma schemaConv_contract_round_trip (df : DataFrame) :
  load_lookupTables (Some (schemaConv df).2) = Ok (schemaConv df).1.2.
Proof. apply load_dumps_lookupTables, build_lookupTables_NoDup. Qed.

(** C8. A dictionary of lookup tables written by the JSON persistence of
    [schemaConv] and read back by the loader of [schemaConv2] is the same
    dictionary: the same columns in the same order, each with the same
    ids attached to the same values. *)
Theorem mapping_contract_round_trip (lookupTables : dict lookup_df) :
  NoDup lookupTables.*1 →
  load_lookupTables (Some (dumps (serializable_lookup lookupTables)))
  = Ok lookupTables.
Proof. apply load_dumps_lookupTables. Qed.

Lemma mapping_contract_round_trip_witness :
  load_lookupTables
    (Some (dumps (serializable_lookup
                    [("species", [(1, "Bird"); (2, "Cat"); (3, "Dog")]%Z);
                     ("color", [(1, "Black")]%Z)])))
  = Ok [("species", [(1, "Bird"); (2, "Cat"); (3, "Dog")]%Z);
        ("color", [(1, "Black")]%Z)].
Proof.
  apply (mapping_contract_round_trip
           [("species", [(1, "Bird"); (2, "Cat"); (3, "Dog")]%Z);
            ("color", [(1, "Black")]%Z)]).
  by compute_done.
Defined.

(** ** [upConnection] *)

Lemma existsb_elem_of {A} (f : A → bool) (l : list A) :
  existsb f l = true ↔ ∃ x, x ∈ l ∧ f x = true.
Proof.
  rewrite List.existsb_exists. split; intros (x & Hx & Hf); exists x;
    (split; [by apply list_elem_of_In|done]).
Qed.

Lemma existsb_false_elem_of {A} (f : A → bool) (l : list A) :
  existsb f l = false ↔ ∀ x, x ∈ l → f x = false.
Proof.
  split.
  - intros Hex x Hx. destruct (f x) eqn:Hf; [|done].
    assert (existsb f l = true) by (apply existsb_elem_of; eauto). congruence.
  - intros Hall. destruct (existsb f l) eqn:Hex; [|done].
    apply existsb_elem_of in Hex as (x & Hx & Hf). rewrite Hall in Hf; done.
Qed.

Section upsert_by_key.
Context {R K : Type} `{EqDecision K} (key : R → K).

Lemma ups_present rs b :
  (∃ r, r ∈ rs ∧ key r = key b) →
  ups key rs b = (λ old, if bool_decide (key old = key b) then b else old) <$> rs.
Proof.
  intros (r & Hr & Hk). unfold ups.
  assert (existsb (λ old, bool_decide (key old = key b)) rs = true) as ->; [|done].
  apply existsb_elem_of. exists r. by rewrite bool_decide_true.
Qed.

Lemma ups_elem_of r rs b :
  r ∈ ups key rs b → (key r = key b ∧ r = b) ∨ (key r ≠ key b ∧ r ∈ rs).
Proof.
  unfold ups. destruct (existsb _ rs) eqn:Hex.
  - intros (old & -> & Hold)%list_elem_of_fmap. case_bool_decide; auto.
  - intros [Hr | ->%list_elem_of_singleton]%elem_of_app; [|auto].
    right. split; [|done]. intros Hk.
    pose proof (proj1 (existsb_false_elem_of _ _) Hex r Hr) as Hf.
    simpl in Hf. by rewrite bool_decide_true in Hf.
Qed.

Lemma ups_keeps_key rs b k :
  (∃ r, r ∈ rs ∧ key r = k) → ∃ r, r ∈ ups key rs b ∧ key r = k.
Proof.
  intros (r & Hr & Hk). unfold ups. destruct (existsb _ rs) eqn:Hex.
  - destruct (decide (key r = key b)) as [Heq|Hne].
    + exists b. split; [|congruence]. apply list_elem_of_fmap. exists r.
      by rewrite bool_decide_true.
    + exists r. split; [|done]. apply list_elem_of_fmap. exists r.
      by rewrite bool_decide_false.
  - exists r. split; [|done]. apply elem_of_app. by left.
Qed.

Lemma ups_has_key rs b : ∃ r, r ∈ ups key rs b ∧ key r = key b.
Proof.
  unfold ups. destruct (existsb _ rs) eqn:Hex.
  - apply existsb_elem_of in Hex as (r & Hr & Hk).
    exists b. split; [|done]. apply list_elem_of_fmap. exists r.
    by rewrite Hk.
  - exists b. split; [|done]. apply elem_of_app. right.
    by apply list_elem_of_singleton.
Qed.

Lemma foldl_ups_keeps_key news rs k :
  (∃ r, r ∈ rs ∧ key r = k) → ∃ r, r ∈ foldl (ups key) rs news ∧ key r = k.
Proof.
  revert rs. induction news as [|b news IH]; intros rs Hk; [done|].
  simpl. by apply IH, ups_keeps_key.
Qed.

(** Applying a batch to rows that already hold all its keys replaces each
    row by the last row of the batch with the same key. *)
Lemma foldl_ups_present news rs :
  (∀ b, b ∈ news → ∃ r, r ∈ rs ∧ key r = key b) →
  foldl (ups key) rs news = (λ r, default r (final_of key news (key r))) <$> rs.
Proof.
  revert rs. induction news as [|b news IH]; intros rs Hkeys.
  - simpl. by rewrite list_fmap_id.
  - simpl. rewrite ups_present by (apply Hkeys, elem_of_cons; by left).
    rewrite IH.
    + rewrite <- list_fmap_compose. apply list_fmap_ext. intros _ r _. simpl.
      case_bool_decide as Hk.
      * rewrite Hk. destruct (final_of key news (key b)); [done|].
        by rewrite decide_True.
      * destruct (final_of key news (key r)); [done|].
        rewrite decide_False; [done|congruence].
    + intros b' Hb'. destruct (Hkeys b') as (r & Hr & Hk);
        [apply elem_of_cons; by right|].
      rewrite <- ups_present by (apply Hkeys, elem_of_cons; by left).
      apply ups_keeps_key. eauto.
Qed.

(** After a batch, a row whose key occurs in the batch is the last row of
    the batch with that key; any other row was there before. *)
Lemma foldl_ups_final news rs r :
  r ∈ foldl (ups key) rs news →
  match final_of key news (key r) with
  | Some x => r = x
  | None => r ∈ rs
  end.
Proof.
  revert rs. induction news as [|b news IH]; intros rs Hr; [done|].
  simpl in *. specialize (IH _ Hr).
  destruct (final_of key news (key r)); [done|].
  apply ups_elem_of in IH as [[Hk ->]|[Hk Hin]].
  - by rewrite decide_True.
  - rewrite decide_False; [done|congruence].
Qed.

Lemma foldl_ups_idempotent news rs :
  foldl (ups key) (foldl (ups key) rs news) news = foldl (ups key) rs news.
Proof.
  rewrite foldl_ups_present.
  - rewrite <- (list_fmap_id (foldl (ups key) rs news)) at 2.
    apply list_fmap_ext. intros _ r Hr%list_elem_of_lookup_2.
    apply foldl_ups_final in Hr.
    destruct (final_of key news (key r)); simpl; congruence.
  - intros b Hb. clear -Hb. revert rs.
    induction news as [|b' news IH]; intros rs; [by apply elem_of_nil in Hb|].
    simpl. apply elem_of_cons in Hb as [->|Hb]; [|by apply IH].
    apply foldl_ups_keeps_key, ups_has_key.
Qed.

End upsert_by_key.

Lemma ups_Forall {R K : Type} `{EqDecision K} (key : R → K) (P : R → Prop) rs b :
  Forall P rs → P b → Forall P (ups key rs b).
Proof.
  intros Hrs Hb. unfold ups. destruct (existsb _ rs).
  - apply Forall_fmap. eapply Forall_impl; [done|]. intros r Hr. simpl.
    by case_bool_decide.
  - apply Forall_app. split; [done|]. by apply Forall_singleton.
Qed.

Lemma existsb_ext_elem_of {A} (f g : A → bool) (l : list A) :
  (∀ x, x ∈ l → f x = g x) → existsb f l = existsb g l.
Proof.
  induction l as [|a l IH]; intros Hfg; [done|]. simpl.
  rewrite Hfg by (apply elem_of_cons; by left).
  rewrite IH; [done|]. intros x Hx. apply Hfg, elem_of_cons. by right.
Qed.

(** *** One statement *)

Lemma update_row_duplicate_aux (pk cols : list string) (old new : row) :
  length old = length cols → length new = length cols →
  omap (λ cv : string * scalar, if decide (cv.1 ∈ pk) then Some cv.2 else None)
    (zip cols old)
  = omap (λ cv : string * scalar, if decide (cv.1 ∈ pk) then Some cv.2 else None)
      (zip cols new) →
  zip_with (λ (c : string) (on : scalar * scalar),
              if decide (c ∈ pk) then on.1 else on.2) cols (zip old new)
  = new.
Proof.
  revert old new. induction cols as [|c cols IH]; intros [|o old] [|n new];
    simpl; try done.
  intros Hold Hnew. destruct (decide (c ∈ pk)); simpl.
  - intros [= -> Heq]. f_equal. apply IH; [lia..|done].
  - intros Heq. f_equal. apply IH; [lia..|done].
Qed.

(** On a primary-key collision the updated row is the inserted row: the
    key columns agree and every other column is overwritten. *)
Lemma update_row_duplicate (t : Table) (old new : row) :
  length old = length (columns t) → length new = length (columns t) →
  pk_values t old = pk_values t new → update_row t old new = new.
Proof. apply update_row_duplicate_aux. Qed.

Lemma length_inserted (t : Table) record :
  length (inserted t record) = length (columns t).
Proof. unfold inserted. by rewrite length_fmap. Qed.

Lemma duplicate_key_pk (t : Table) (old new : row) :
  primary_key t ≠ [] →
  duplicate_key t old new = bool_decide (pk_values t old = pk_values t new).
Proof.
  intros Hpk. unfold duplicate_key. by rewrite bool_decide_false.
Qed.

Lemma upsert_row_ups (t : Table) (rs : list row) (new : row) :
  primary_key t ≠ [] →
  Forall (λ r, length r = length (columns t)) rs →
  length new = length (columns t) →
  upsert_row t rs new = ups (pk_values t) rs new.
Proof.
  intros Hpk Hrs Hnew. unfold upsert_row, ups.
  rewrite (existsb_ext_elem_of _
             (λ old, bool_decide (pk_values t old = pk_values t new)))
    by (intros; by apply duplicate_key_pk).
  destruct (existsb _ rs); [|done].
  apply list_fmap_ext. intros i old Hold. rewrite duplicate_key_pk by done.
  case_bool_decide as Hk; [|done].
  apply update_row_duplicate; [|done..].
  by apply (Forall_lookup_1 _ _ _ _ Hrs Hold).
Qed.

Lemma foldl_upsert_row_ups (t : Table) (news : list row) (rs : list row) :
  primary_key t ≠ [] →
  Forall (λ r, length r = length (columns t)) rs →
  Forall (λ r, length r = length (columns t)) news →
  foldl (upsert_row t) rs news = foldl (ups (pk_values t)) rs news
  ∧ Forall (λ r, length r = length (columns t)) (foldl (upsert_row t) rs news).
Proof.
  intros Hpk. revert rs. induction news as [|b news IH]; intros rs Hrs Hnews;
    [done|].
  apply Forall_cons in Hnews as [Hb Hnews]. simpl.
  rewrite upsert_row_ups by done. apply IH; [|done]. by apply ups_Forall.
Qed.

(** *** The batch inside its transaction *)

Lemma execute_records_committed (t : Table) conn records :
  committed (execute_records t conn records).1 = committed conn.
Proof.
  revert conn. induction records as [|record records IH]; intros conn; [done|].
  simpl. unfold execute_upsert. destruct (check_statement t record); [done|].
  by rewrite IH.
Qed.

Lemma execute_records_raised (t : Table) conn records :
  (execute_records t conn records).2 = first_error t records.
Proof.
  revert conn. induction records as [|record records IH]; intros conn; [done|].
  simpl. unfold execute_upsert. destruct (check_statement t record); [done|].
  by rewrite IH.
Qed.

Lemma execute_records_working (t : Table) conn records :
  first_error t records = None →
  working (execute_records t conn records).1
  = foldl (upsert_row t) (working conn) (inserted t <$> records).
Proof.
  revert conn. induction records as [|record records IH]; intros conn; [done|].
  simpl. unfold execute_upsert. destruct (check_statement t record); [done|].
  intros Hok. by rewrite IH.
Qed.


Lemma first_error_None (t : Table) records :
  (∀ record, record ∈ records → check_statement t record = None) →
  first_error t records = None.
Proof.
  induction records as [|r records IH]; intros Hall; [done|]. simpl.
  rewrite Hall by (apply elem_of_cons; by left).
  apply IH. intros record Hin. apply Hall, elem_of_cons. by right.
Qed.

(** The checks of a statement look at the schema only, not at the rows. *)
Lemma first_error_rows cols pk (rs1 rs2 : list row) records :
  first_error (mkTable cols pk rs1) records
  = first_error (mkTable cols pk rs2) records.
Proof.
  induction records as [|r records IH]; [done|]. simpl.
  change (check_statement (mkTable cols pk rs1) r)
    with (check_statement (mkTable cols pk rs2) r).
  by rewrite IH.
Qed.

Lemma upConnection_raised (df : DataFrame) (t : Table) e :
  first_error t (to_records df) = Some e → upConnection df t = (t, Some e).
Proof.
  intros He. unfold upConnection.
  pose proof (execute_records_raised t (begin t) (to_records df)) as Hr.
  pose proof (execute_records_committed t (begin t) (to_records df)) as Hc.
  destruct (execute_records t (begin t) (to_records df)) as [conn raised].
  simpl in *. rewrite Hr, He, Hc. by destruct t.
Qed.

Lemma upConnection_committed (df : DataFrame) (t : Table) :
  first_error t (to_records df) = None →
  upConnection df t
  = (mkTable (columns t) (primary_key t)
       (foldl (upsert_row t) (rows t) (inserted t <$> to_records df)), None).
Proof.
  intros He. unfold upConnection.
  pose proof (execute_records_raised t (begin t) (to_records df)) as Hr.
  pose proof (execute_records_working t (begin t) (to_records df) He) as Hw.
  destruct (execute_records t (begin t) (to_records df)) as [conn raised].
  simpl in *. by rewrite Hr, He, Hw.
Qed.


(** C1. On a table with a primary key whose rows have one value per
    column: applying [upConnection] a second time with the same frame
    leaves the table as the first application left it; a statement whose
    key is already stored overwrites every non-key column of that row with
    the incoming value and keeps the number of rows; a statement whose key
    is not stored appends the new row. *)
Theorem upConnection_idempotent (df : DataFrame) (t : Table) :
  table_wf t →
  (upConnection df (upConnection df t).1).1 = (upConnection df t).1
  ∧ (∀ rs record old,
       check_statement t record = None → old ∈ rs →
       length old = length (columns t) →
       duplicate_key t old (inserted t record) = true →
       ∃ rs',
         execute_upsert t rs record = Ok rs'
         ∧ length rs' = length rs
         ∧ update_row t old (inserted t record) ∈ rs'
         ∧ ∀ i c, columns t !! i = Some c →
             update_row t old (inserted t record) !! i
             = if decide (c ∈ primary_key t) then old !! i
               else Some (default SNone (dict_get c record)))
  ∧ (∀ rs record,
       check_statement t record = None →
       (∀ old, old ∈ rs → duplicate_key t old (inserted t record) = false) →
       execute_upsert t rs record = Ok (rs ++ [inserted t record])).
Proof.
  intros [Hpk Hrows]. split; [|split].
  - destruct (first_error t (to_records df)) as [e|] eqn:He.
    + rewrite (upConnection_raised df t e He). simpl.
      by rewrite (upConnection_raised df t e He).
    + rewrite (upConnection_committed df t He). simpl.
      destruct t as [cols pk rs]. simpl in *.
      set (news := inserted (mkTable cols pk rs) <$> to_records df).
      set (t1 := mkTable cols pk (foldl (upsert_row (mkTable cols pk rs)) rs news)).
      assert (Hnews : Forall (λ r, length r = length cols) news).
      { apply Forall_fmap, Forall_forall. intros record _. simpl.
        apply (length_inserted (mkTable cols pk rs)). }
      destruct (foldl_upsert_row_ups (mkTable cols pk rs) news rs Hpk Hrows Hnews)
        as [Hfold Hlen].
      assert (He1 : first_error t1 (to_records df) = None)
        by (by rewrite <- He; apply first_error_rows).
      rewrite (upConnection_committed df t1 He1). simpl. unfold t1. f_equal.
      change (inserted _ <$> to_records df) with news.
      change (upsert_row (mkTable cols pk _)) with (upsert_row (mkTable cols pk rs)).
      destruct (foldl_upsert_row_ups (mkTable cols pk rs) news
                  (foldl (upsert_row (mkTable cols pk rs)) rs news) Hpk Hlen Hnews)
        as [Hfold2 _].
      rewrite Hfold2, Hfold. apply foldl_ups_idempotent.
  - intros rs record old Hok Hold Hlen Hdup.
    unfold execute_upsert. rewrite Hok. eexists. split; [done|].
    unfold upsert_row.
    assert (existsb (λ old0, duplicate_key t old0 (inserted t record)) rs = true)
      as -> by (apply existsb_elem_of; eauto).
    split; [by rewrite length_fmap|]. split.
    + apply list_elem_of_fmap. exists old. by rewrite Hdup.
    + intros i c Hc.
      destruct (lookup_lt_is_Some_2 old i) as [o Ho].
      { rewrite Hlen. by eapply lookup_lt_Some. }
      assert (Hnew : inserted t record !! i
                     = Some (default SNone (dict_get c record))).
      { unfold inserted. by rewrite list_lookup_fmap, Hc. }
      assert (Hzip : zip old (inserted t record) !! i
                     = Some (o, default SNone (dict_get c record))).
      { by apply lookup_zip_Some. }
      unfold update_row. rewrite lookup_zip_with, Hc. csimpl.
      rewrite Hzip, Ho. csimpl. by case_decide.
  - intros rs record Hok Hnone. unfold execute_upsert. rewrite Hok.
    unfold upsert_row.
    by rewrite (proj2 (existsb_false_elem_of _ _) Hnone).
Qed.

Lemma upConnection_idempotent_witness :
  table_wf pets
  ∧ (upConnection batch (upConnection batch pets).1).1
    = mkTable ["animalID"; "name"; "age"] ["animalID"]
        [[int 42; SStr "Max"; int 5]; [int 7; SStr "Tom"; int 1];
         [int 99; SStr "Ace"; int 1]].
Proof.
  assert (Hwf : table_wf pets) by (split; [done|by repeat constructor]).
  split; [exact Hwf|].
  rewrite (proj1 (upConnection_idempotent batch pets Hwf)). reflexivity.
Defined.


(** * Further properties *)

(** ** [dropInvalid]: when it returns, and what it returns *)

Lemma iloc_update_labels i f (df df1 : DataFrame) :
  iloc_update i f df = Ok df1 → df1.*1 = df.*1.
Proof.
  unfold iloc_update, DataFrame, dict in *.
  destruct (df !! i) as [[name s]|] eqn:Hi; [|done].
  intros [= <-]. rewrite list_fmap_insert. simpl.
  apply list_insert_id. by rewrite list_lookup_fmap, Hi.
Qed.

Lemma getitem_Ok name (df : DataFrame) :
  (∃ s, getitem name df = Ok s) ↔ name ∈ df.*1.
Proof.
  unfold getitem. destruct (dict_get name df) as [s|] eqn:Hget.
  - split; [|by eexists]. intros _.
    apply dict_get_Some_elem_of in Hget. apply list_elem_of_fmap.
    by exists (name, s).
  - split; [by intros [s ?]|]. intros Hin. by apply dict_get_None in Hget.
Qed.

(** X1. [dropInvalid] needs a second column to coerce and a column labelled
    [animalID] to filter on: a frame with fewer than two columns raises
    [IndexError], a frame without the label raises [KeyError], and every
    other frame is accepted. *)
Theorem dropInvalid_returns (df : DataFrame) :
  (length df < 2 → dropInvalid df = Raise IndexError)
  ∧ (2 ≤ length df → "animalID" ∉ df.*1 → dropInvalid df = Raise KeyError)
  ∧ (2 ≤ length df → "animalID" ∈ df.*1 → ∃ df', dropInvalid df = Ok df').
Proof.
  unfold dropInvalid. split; [|split].
  - intros Hlen. unfold iloc_update, DataFrame, dict.
    by rewrite (lookup_ge_None_2 df 1) by lia.
  - intros Hlen Hno.
    destruct (iloc_update 1 to_numeric_coerce df) as [df1|e] eqn:Hup.
    + csimpl. unfold dropna.
      destruct (getitem "animalID" df1) as [s|e] eqn:Hget.
      * exfalso. apply Hno. rewrite <- (iloc_update_labels _ _ _ _ Hup).
        apply getitem_Ok. by exists s.
      * unfold getitem in Hget.
        destruct (dict_get "animalID" df1); [done|]. by injection Hget as <-.
    + unfold iloc_update, DataFrame, dict in Hup.
      destruct (lookup_lt_is_Some_2 df 1) as [[n s] Hs]; [lia|].
      by rewrite Hs in Hup.
  - intros Hlen Hin.
    destruct (iloc_update 1 to_numeric_coerce df) as [df1|e] eqn:Hup.
    + csimpl. unfold dropna.
      destruct (proj2 (getitem_Ok "animalID" df1)) as [sid ->].
      * by rewrite (iloc_update_labels _ _ _ _ Hup).
      * csimpl. by eexists.
    + unfold iloc_update, DataFrame, dict in Hup.
      destruct (lookup_lt_is_Some_2 df 1) as [[n s] Hs]; [lia|].
      by rewrite Hs in Hup.
Qed.

Lemma dropInvalid_returns_witness :
  dropInvalid [("animalID", mkSeries DObject [SStr "12"])] = Raise IndexError
  ∧ dropInvalid [("orgID", mkSeries DObject [SStr "7"]);
                 ("name", mkSeries DObject [SStr "Rex"])] = Raise KeyError
  ∧ ∃ df', dropInvalid [("orgID", mkSeries DObject [SStr "7"]);
                        ("animalID", mkSeries DObject [SStr "12"])] = Ok df'.
Proof.
  split; [|split].
  - apply (dropInvalid_returns [("animalID", mkSeries DObject [SStr "12"])]).
    simpl. lia.
  - apply (dropInvalid_returns [("orgID", mkSeries DObject [SStr "7"]);
                                ("name", mkSeries DObject [SStr "Rex"])]).
    + simpl. lia.
    + by compute_done.
  - apply (dropInvalid_returns [("orgID", mkSeries DObject [SStr "7"]);
                                ("animalID", mkSeries DObject [SStr "12"])]).
    + simpl. lia.
    + by compute_done.
Defined.

Lemma to_numeric_coerce_idemp v :
  to_numeric_coerce (to_numeric_coerce v) = to_numeric_coerce v.
Proof.
  destruct v as [| | |s|x|b]; simpl; try done.
  by destruct (parse_number false s) as [[x|]|].
Qed.

Lemma to_numeric_coerce_number v :
  isna (to_numeric_coerce v) = false → ∃ x, to_numeric_coerce v = SNum x.
Proof.
  destruct v as [| | |s|x|b]; simpl; try done; try (by eexists).
  destruct (parse_number false s) as [[x|]|]; try done. by eexists.
Qed.

Lemma compress_fmap {A B} (f : A → B) mask (l : list A) :
  f <$> compress mask l = compress mask (f <$> l).
Proof.
  revert l. induction mask as [|m mask IH]; intros [|a l]; csimpl; try done.
  destruct m; csimpl; by rewrite IH.
Qed.

Lemma compress_filter {A} (p : A → bool) (l : list A) :
  compress (p <$> l) l = filter (λ a, p a) l.
Proof.
  induction l as [|a l IH]; [done|]. csimpl. rewrite filter_cons, IH.
  by destruct (p a).
Qed.

Lemma compress_Forall {A} (p : A → bool) (l : list A) :
  Forall (λ a, p a = true) (compress (p <$> l) l).
Proof.
  rewrite compress_filter. apply Forall_forall. intros a Ha.
  apply list_elem_of_filter in Ha as [Hp _]. by destruct (p a).
Qed.

Lemma compress_length_le {A B} mask (l : list A) (c : list B) :
  length mask = length l →
  length (compress mask c) ≤ length (compress mask l).
Proof.
  revert l c. induction mask as [|m mask IH]; intros [|a l] [|b c] Hlen;
    simpl in *; try done; try lia.
  destruct m; simpl; specialize (IH l c); lia.
Qed.

Lemma compress_all_true {A} (k : nat) (c : list A) :
  length c ≤ k → compress (replicate k true) c = c.
Proof.
  revert c. induction k as [|k IH]; intros [|a c] Hlen; simpl in *;
    try done; try lia.
  rewrite IH; [done|lia].
Qed.

Lemma fmap_const_true {A} (p : A → bool) (l : list A) :
  Forall (λ a, p a = true) l → p <$> l = replicate (length l) true.
Proof.
  induction 1 as [|a l Ha Hl IH]; [done|]. csimpl. by rewrite Ha, IH.
Qed.

(** The frame [dropInvalid] returns when the identifier is the second
    column. *)
Lemma dropInvalid_second n0 s0 s1 (rest : DataFrame) :
  n0 ≠ "animalID" →
  dropInvalid ((n0, s0) :: ("animalID", s1) :: rest)
  = Ok (select_rows
          ((λ v, negb (isna v)) <$> (to_numeric_coerce <$> values s1))
          ((n0, s0)
           :: ("animalID", mkSeries (sdtype s1) (to_numeric_coerce <$> values s1))
           :: rest)).
Proof.
  intros Hne. unfold dropInvalid. simpl. unfold dropna, getitem. simpl.
  destruct (decide (n0 = "animalID")); [done|].
  by destruct (decide ("animalID" = "animalID")).
Qed.

(** X2. After [dropInvalid] every identifier is a number: no missing value and
    no text is left in the [animalID] column. *)
Theorem dropInvalid_ids_are_numbers n0 s0 s1 (rest : DataFrame) :
  n0 ≠ "animalID" →
  ∃ df' ids,
    dropInvalid ((n0, s0) :: ("animalID", s1) :: rest) = Ok df'
    ∧ dict_get "animalID" df' = Some ids
    ∧ Forall (λ v, ∃ x, v = SNum x) (values ids).
Proof.
  intros Hne. rewrite dropInvalid_second by done.
  eexists. eexists. split; [done|]. split.
  - simpl. destruct (decide (n0 = "animalID")); [contradiction|]. done.
  - simpl.
    pose proof (compress_Forall (λ v, negb (isna v))
                  (to_numeric_coerce <$> values s1)) as Hall.
    apply Forall_forall. intros v Hv.
    pose proof (proj1 (Forall_forall _ _) Hall v Hv) as Hna. simpl in Hna.
    rewrite compress_filter in Hv. apply list_elem_of_filter in Hv as [_ Hv].
    apply list_elem_of_fmap in Hv as (v0 & -> & _).
    apply to_numeric_coerce_number. by apply negb_true_iff.
Qed.

Lemma dropInvalid_ids_are_numbers_witness :
  "orgID" ≠ "animalID"
  ∧ ∃ df' ids,
      dropInvalid
        [("orgID", mkSeries DObject [SStr "7"; SStr "7"]);
         ("animalID", mkSeries DObject [SStr "12"; SStr "image.jpg"])] = Ok df'
      ∧ dict_get "animalID" df' = Some ids
      ∧ Forall (λ v, ∃ x, v = SNum x) (values ids).
Proof.
  split; [done|].
  apply (dropInvalid_ids_are_numbers "orgID"
           (mkSeries DObject [SStr "7"; SStr "7"])
           (mkSeries DObject [SStr "12"; SStr "image.jpg"]) []).
  done.
Defined.

(** X3. [dropInvalid] is idempotent: applied to its own result it returns that
    result. *)
Theorem dropInvalid_idempotent n0 s0 s1 (rest : DataFrame) df' :
  n0 ≠ "animalID" →
  dropInvalid ((n0, s0) :: ("animalID", s1) :: rest) = Ok df' →
  dropInvalid df' = Ok df'.
Proof.
  intros Hne. rewrite dropInvalid_second by done. intros [= <-].
  set (ids := to_numeric_coerce <$> values s1).
  set (mask := (λ v, negb (isna v)) <$> ids).
  unfold select_rows. csimpl. rewrite dropInvalid_second by done. simpl.
  assert (Hids : to_numeric_coerce <$> compress mask ids = compress mask ids).
  { rewrite compress_fmap. unfold ids. rewrite <- list_fmap_compose.
    f_equal. apply list_fmap_ext. intros _ v _. apply to_numeric_coerce_idemp. }
  rewrite Hids.
  assert (Hmask : (λ v, negb (isna v)) <$> compress mask ids
                  = replicate (length (compress mask ids)) true).
  { apply fmap_const_true, compress_Forall. }
  rewrite Hmask.
  assert (Hcol : ∀ c : list scalar,
            compress (replicate (length (compress mask ids)) true) (compress mask c)
            = compress mask c).
  { intros c. apply compress_all_true, compress_length_le.
    unfold mask. by rewrite length_fmap. }
  unfold select_rows. csimpl. rewrite !Hcol. do 3 f_equal.
  rewrite <- list_fmap_compose. apply list_fmap_ext. intros _ [n s] _. simpl.
  by rewrite Hcol.
Qed.

Lemma dropInvalid_idempotent_witness :
  "orgID" ≠ "animalID"
  ∧ dropInvalid
      [("orgID", mkSeries DObject [SStr "7"]);
       ("animalID", mkSeries DObject [int 12])]
    = Ok [("orgID", mkSeries DObject [SStr "7"]);
          ("animalID", mkSeries DObject [int 12])].
Proof.
  split; [done|].
  apply (dropInvalid_idempotent "orgID"
           (mkSeries DObject [SStr "7"; SStr "7"])
           (mkSeries DObject [SStr "12"; SStr "image.jpg"]) []);
    [done|reflexivity].
Defined.



(** ** [dtypeConv]: categorical columns and the null normalisation *)

Lemma elem_of_text_values (c : string) (vs : list scalar) :
  c ∈ omap text_of vs ↔ SStr c ∈ vs.
Proof.
  rewrite list_elem_of_omap. split.
  - intros (v & Hv & Ht). destruct v; simplify_eq/=. done.
  - intros Hc. by exists (SStr c).
Qed.

(** X5. [astype('category')] (lines 190, 193 and the like) on a column of
    texts and missing values: the categories are the distinct texts of the
    column, each once, in sorted order; a cell keeps its text and a missing
    cell is NaN, so every cell of the result is missing or holds one of the
    categories. *)
Theorem astype_category_spec (col : Series) :
  (∀ v, v ∈ values col → isna v = true ∨ ∃ c, v = SStr c) →
  ∃ categories,
    sdtype (astype_category col) = DCategory categories
    ∧ NoDup categories
    ∧ Sorted String.le categories
    ∧ (∀ c, c ∈ categories ↔ SStr c ∈ values col)
    ∧ length (values (astype_category col)) = length (values col)
    ∧ (∀ v, v ∈ values (astype_category col) →
         isna v = true ∨ ∃ c, v = SStr c ∧ c ∈ categories)
    ∧ ∀ i v, values col !! i = Some v →
        values (astype_category col) !! i
        = Some (if isna v then SNaN else v).
Proof.
  intros Htext.
  assert (Hmem : ∀ c, c ∈ sorted (remove_dups (omap text_of (values col)))
                      ↔ SStr c ∈ values col).
  { intros c. rewrite sorted_Permutation, elem_of_remove_dups.
    apply elem_of_text_values. }
  eexists. split; [done|]. split; [|split; [|split; [|split; [|split]]]].
  - rewrite sorted_Permutation. apply NoDup_remove_dups.
  - apply sorted_Sorted.
  - done.
  - simpl. by rewrite length_fmap.
  - simpl. intros v (v0 & -> & Hv0)%list_elem_of_fmap.
    destruct (Htext v0 Hv0) as [Hna|(c & ->)].
    + left. by rewrite Hna.
    + right. exists c. split; [done|]. by apply Hmem.
  - intros i v Hv. simpl. by rewrite list_lookup_fmap, Hv.
Qed.

Lemma astype_category_spec_witness :
  ∃ categories,
    sdtype (astype_category
              (mkSeries DObject [SStr "Dog"; SNone; SStr "Cat"; SStr "Dog"]))
    = DCategory categories
    ∧ NoDup categories
    ∧ Sorted String.le categories.
Proof.
  destruct (astype_category_spec
              (mkSeries DObject [SStr "Dog"; SNone; SStr "Cat"; SStr "Dog"]))
    as (categories & Hdt & Hnd & Hsorted & _).
  - intros v Hv. simpl in Hv.
    repeat (apply elem_of_cons in Hv as [->|Hv]; [by eauto|]).
    by apply elem_of_nil in Hv.
  - by exists categories.
Defined.

Lemma values_replace_nan_None (col : Series) :
  (∀ categories, sdtype col ≠ DCategory categories) →
  (∀ categories, sdtype col ≠ DCategoryInt categories) →
  values (replace_nan_None col)
  = (λ v, if isna v then SNone else v) <$> values col.
Proof.
  intros Hc Hci. unfold replace_nan_None.
  assert (Hid : existsb isna (values col) = false →
            values col = (λ v, if isna v then SNone else v) <$> values col).
  { induction (values col) as [|v vs IH]; [done|]. simpl.
    intros [Hv Hvs]%orb_false_iff. csimpl. rewrite Hv. f_equal. by apply IH. }
  destruct (sdtype col) eqn:Hdt;
    try (by destruct (Hc categories)); try (by destruct (Hci categories));
    destruct (existsb isna (values col)) eqn:Hna; simpl; try done;
    by apply Hid.
Qed.

Lemma sdtype_replace_nan_None_float (col : Series) :
  sdtype (replace_nan_None col) = DFloat64 → existsb isna (values col) = false.
Proof.
  unfold replace_nan_None.
  destruct (sdtype col) eqn:Hdt; try done;
    destruct (existsb isna (values col)) eqn:Hna; simpl; congruence.
Qed.

(** X6. The null normalisation at the end of [dtypeConv] (lines 219 to 221) on
    a frame with distinct labels. The labels are kept. In every column
    each cell that holds a value keeps it and each missing cell is still
    missing: the zero fill of line 221 never replaces anything. In a column
    that was of object or float dtype the missing cells all hold [None],
    and a column that is still of float dtype holds no missing cell at
    all. *)
Theorem dtypeConv_nulls_post (df : DataFrame) :
  NoDup df.*1 →
  (dtypeConv_nulls df).*1 = df.*1
  ∧ ∀ name s, (name, s) ∈ df →
      ∃ s',
        dict_get name (dtypeConv_nulls df) = Some s'
        ∧ length (values s') = length (values s)
        ∧ (∀ i v, values s !! i = Some v → isna v = false →
             values s' !! i = Some v)
        ∧ (∀ i v, values s !! i = Some v → isna v = true →
             ∃ v', values s' !! i = Some v' ∧ isna v' = true)
        ∧ (sdtype s = DObject ∨ sdtype s = DFloat64 →
           ∀ v', v' ∈ values s' → isna v' = true → v' = SNone)
        ∧ (sdtype s' = DFloat64 → ∀ v', v' ∈ values s' → isna v' = false).
Proof.
  intros Hnd. rewrite dtypeConv_nulls_no_fill by done. split.
  { rewrite <- list_fmap_compose. done. }
  intros name s Hin. exists (replace_nan_None s). split.
  { apply dict_get_elem_of.
    - by rewrite <- list_fmap_compose.
    - apply list_elem_of_fmap. by exists (name, s). }
  split; [apply length_replace_nan_None|]. split; [|split; [|split]].
  - intros i v Hv Hna.
    destruct (lookup_replace_nan_None s i v Hv) as (v' & Hv' & Hkeep & _).
    by rewrite Hv', Hkeep.
  - intros i v Hv Hna.
    destruct (lookup_replace_nan_None s i v Hv) as (v' & Hv' & _ & Hmiss).
    exists v'. by split; [|apply Hmiss].
  - intros Hdt v'.
    rewrite values_replace_nan_None by (intros c; destruct Hdt; congruence).
    intros (v & -> & _)%list_elem_of_fmap.
    destruct (isna v) eqn:Hv; [done|]. intros Hv'. congruence.
  - intros Hdt v' Hv'.
    pose proof (sdtype_replace_nan_None_float s Hdt) as Hna.
    assert (Heq : replace_nan_None s = s).
    { unfold replace_nan_None in *. destruct (sdtype s); try done;
        by rewrite Hna. }
    rewrite Heq in Hv'.
    by apply (proj1 (existsb_false_elem_of isna (values s)) Hna).
Qed.

Lemma dtypeConv_nulls_post_witness :
  NoDup ["weight"; "name"]
  ∧ ∃ s',
      dict_get "weight"
        (dtypeConv_nulls
           [("weight", mkSeries DFloat64 [SNum (Dec 25 (-1)); SNaN]);
            ("name", mkSeries DString [SStr "Rex"; SNA])]) = Some s'
      ∧ values s' !! 0%nat = Some (SNum (Dec 25 (-1)))
      ∧ ∃ v', values s' !! 1%nat = Some v' ∧ isna v' = true.
Proof.
  assert (Hnd : NoDup ["weight"; "name"]) by (by compute_done).
  split; [exact Hnd|].
  destruct (proj2 (dtypeConv_nulls_post
                     [("weight", mkSeries DFloat64 [SNum (Dec 25 (-1)); SNaN]);
                      ("name", mkSeries DString [SStr "Rex"; SNA])] Hnd)
              "weight" (mkSeries DFloat64 [SNum (Dec 25 (-1)); SNaN]))
    as (s' & Hget & _ & Hkeep & Hmiss & _).
  { apply elem_of_cons. by left. }
  exists s'. split; [exact Hget|]. split.
  - by apply (Hkeep 0%nat).
  - by apply (Hmiss 1%nat SNaN).
Defined.

(** ** [dtypeConv], line 211: the first number in a text *)




















(** ** [schemaConv] and [schemaConv2]: the frame, the tables, the ids *)




(** The table of a label, read from the dictionary [schemaConv] builds. *)
Lemma build_lookupTables_table_for (df : DataFrame) k :
  dict_get k (build_lookupTables df) = table_for df k.
Proof.
  unfold build_lookupTables. rewrite build_lookupTables_step. simpl.
  destruct (decide (k ∈ catList df)) as [Hin|Hnot];
    [by destruct (table_for df k)|].
  unfold table_for. destruct (dict_get k df) as [s|] eqn:Hget; [|done].
  destruct (sdtype s) eqn:Hdt; try done.
  destruct Hnot. eapply elem_of_catList; [|done].
  by apply dict_get_Some_elem_of.
Qed.

Lemma make_lookup_is_Some categories :
  is_Some (make_lookup categories) ↔ 5 < length categories.
Proof.
  split.
  - intros [t Ht]. destruct (decide (5 < length categories)); [done|].
    rewrite make_lookup_None in Ht by lia. done.
  - intros Hlen. destruct (make_lookup_Some _ Hlen) as (t & -> & _). by eexists.
Qed.





Lemma StronglySorted_lookup_lt {A} (R : relation A) (l : list A) i j x y :
  StronglySorted R l → i < j → l !! i = Some x → l !! j = Some y → R x y.
Proof.
  intros Hs. revert i j.
  induction Hs as [|a l Hs IH Hall]; intros i j Hij Hi Hj; [done|].
  destruct j as [|j]; [lia|]. destruct i as [|i]; simplify_eq/=.
  - apply (proj1 (Forall_forall _ _) Hall). by eapply list_elem_of_lookup_2.
  - eapply (IH i j); [lia|done..].
Qed.

(** The rows of the table [zip [1; 2; ...] values]. *)
Lemma elem_of_numbered (l : list string) (id : Z) (c : string) :
  (id, c) ∈ zip (seqZ 1 (Z.of_nat (length l))) l ↔
  (1 ≤ id)%Z ∧ l !! Z.to_nat (id - 1) = Some c.
Proof.
  rewrite list_elem_of_lookup. split.
  - intros [k Hk]. apply lookup_zip_with_Some in Hk as (x & y & [= -> ->] & Hx & Hy).
    apply lookup_seqZ in Hx as [-> Hlt].
    split; [lia|]. by replace (Z.to_nat (1 + Z.of_nat k - 1)) with k by lia.
  - intros [Hid Hc]. exists (Z.to_nat (id - 1)).
    apply lookup_zip_with_Some. exists id, c. split; [done|]. split; [|done].
    apply lookup_seqZ. split; [lia|].
    apply lookup_lt_Some in Hc. lia.
Qed.

(** X9. The ids of a lookup table follow the sorted order of the values: a row
    sits at the position its id names, two rows have the same id exactly
    when they have the same value, and the smaller id belongs to the
    value that sorts first. *)
Theorem schemaConv_ids_ordered (df : DataFrame) name (s : Series) categories
    (lookup : lookup_df) :
  NoDup df.*1 → (name, s) ∈ df →
  sdtype s = DCategory categories → NoDup categories →
  dict_get name (schemaConv df).1.2 = Some lookup →
  (∀ id c, (id, c) ∈ lookup → lookup !! Z.to_nat (id - 1) = Some (id, c))
  ∧ ∀ id1 c1 id2 c2, (id1, c1) ∈ lookup → (id2, c2) ∈ lookup →
      (id1 = id2 ↔ c1 = c2)
      ∧ ((id1 < id2)%Z ↔ String.le c1 c2 ∧ c1 ≠ c2).
Proof.
  intros Hnd Hin Hdt Hcats Hget. cbn [schemaConv fst snd] in Hget.
  rewrite build_lookupTables_table_for in Hget. unfold table_for in Hget.
  rewrite (dict_get_elem_of _ _ _ Hnd Hin), Hdt in Hget.
  assert (Hlen : 5 < length categories).
  { apply make_lookup_is_Some. by eexists. }
  destruct (make_lookup_Some _ Hlen) as (t & Ht & Hids & Hvals).
  rewrite Ht in Hget. injection Hget as ->.
  set (l := sorted categories) in *.
  assert (Hzip : lookup = zip (seqZ 1 (Z.of_nat (length l))) l).
  { rewrite <- (zip_fst_snd lookup), Hids, Hvals. unfold l.
    by rewrite sorted_length. }
  assert (Hss : StronglySorted String.le l).
  { apply Sorted_StronglySorted; [apply _|]. apply sorted_Sorted. }
  assert (Hndl : NoDup l).
  { unfold l. by rewrite sorted_Permutation. }
  split.
  - intros id c Hc. rewrite Hzip in Hc |- *.
    apply elem_of_numbered in Hc as [Hid Hc].
    apply lookup_zip_with_Some. exists id, c. split; [done|]. split; [|done].
    apply lookup_seqZ. split; [lia|]. apply lookup_lt_Some in Hc. lia.
  - intros id1 c1 id2 c2 H1 H2. rewrite Hzip in H1, H2.
    apply elem_of_numbered in H1 as [Hid1 Hc1].
    apply elem_of_numbered in H2 as [Hid2 Hc2].
    assert (Hinj : c1 = c2 → id1 = id2).
    { intros ->.
      pose proof (NoDup_lookup _ _ _ _ Hndl Hc1 Hc2). lia. }
    split; [split; [|done]|].
    + intros ->. congruence.
    + split.
      * intros Hlt. split.
        -- eapply (StronglySorted_lookup_lt _ l (Z.to_nat (id1 - 1))
                     (Z.to_nat (id2 - 1))); [done|lia|done..].
        -- intros Heq. apply Hinj in Heq. lia.
      * intros [Hle Hne].
        destruct (Z.lt_trichotomy id1 id2) as [?|[->|Hgt]]; [done| |].
        -- congruence.
        -- destruct Hne.
           apply (anti_symm String.le); [done|].
           eapply (StronglySorted_lookup_lt _ l (Z.to_nat (id2 - 1))
                     (Z.to_nat (id1 - 1))); [done|lia|done..].
Qed.

Lemma schemaConv_ids_ordered_witness :
  (3, "Dog")%Z ∈ [(1, "Bird"); (2, "Cat"); (3, "Dog"); (4, "Fish");
                  (5, "Rabbit"); (6, "Turtle")]%Z
  ∧ ((2 < 3)%Z ↔ String.le "Cat" "Dog" ∧ "Cat" ≠ "Dog").
Proof.
  assert (Hnd : NoDup ["species"]) by (by compute_done).
  assert (Hin : ("species", species6) ∈ [("species", species6)]).
  { apply elem_of_cons. by left. }
  assert (Hcats : NoDup ["Bird"; "Cat"; "Dog"; "Fish"; "Rabbit"; "Turtle"])
    by (by compute_done).
  pose proof (schemaConv_ids_ordered [("species", species6)] "species" species6
                ["Bird"; "Cat"; "Dog"; "Fish"; "Rabbit"; "Turtle"]
                [(1, "Bird"); (2, "Cat"); (3, "Dog"); (4, "Fish");
                 (5, "Rabbit"); (6, "Turtle")]%Z
                Hnd Hin eq_refl Hcats eq_refl) as [_ Hord].
  assert (H2 : (2, "Cat")%Z ∈ [(1, "Bird"); (2, "Cat"); (3, "Dog"); (4, "Fish");
                  (5, "Rabbit"); (6, "Turtle")]%Z) by (by compute_done).
  assert (H3 : (3, "Dog")%Z ∈ [(1, "Bird"); (2, "Cat"); (3, "Dog"); (4, "Fish");
                  (5, "Rabbit"); (6, "Turtle")]%Z) by (by compute_done).
  split; [exact H3|]. exact (proj2 (Hord _ _ _ _ H2 H3)).
Defined.

(** The column of a label after the loop of [schemaConv2] and its null
    normalisation. *)
Lemma schemaConv2_apply_get (lookupTables : dict lookup_df) (df : DataFrame)
    name (s : Series) :
  NoDup df.*1 → (name, s) ∈ df →
  dict_get name (schemaConv2_apply lookupTables df)
  = Some (replace_nan_None
            (if decide (name ∈ catList df)
             then match dict_get name lookupTables with
                  | Some t => Series_map (mapping_of t) s
                  | None => s
                  end
             else s)).
Proof.
  intros Hnd Hin. unfold schemaConv2_apply.
  rewrite dict_get_fmap.
  rewrite (dict_get_foldl_update_keys (λ col, dict_get col lookupTables)
             (λ t, Series_map (mapping_of t))) by by apply catList_NoDup.
  rewrite (dict_get_elem_of _ _ _ Hnd Hin).
  destruct (decide (name ∈ catList df)); [|done].
  by destruct (dict_get name lookupTables).
Qed.




(** X12. A value the first run has seen keeps its id in every later run.
    [schemaConv2], reading the file [schemaConv] wrote for the frame
    [df0], returns normally on a later frame [df], and in a categorical
    column that had a table in the first run it writes, for each text the
    first run knew, the id the first run wrote for that text. *)
Theorem schemaConv2_reuses_ids (df0 df : DataFrame) name
    (s0 s : Series) categories0 categories :
  NoDup df0.*1 → (name, s0) ∈ df0 →
  sdtype s0 = DCategory categories0 → 5 < length categories0 →
  NoDup df.*1 → (name, s) ∈ df → sdtype s = DCategory categories →
  ∃ df2 s1 s2,
    schemaConv2 (Some (schemaConv df0).2) df = Ok df2
    ∧ dict_get name (schemaConv df0).1.1 = Some s1
    ∧ dict_get name df2 = Some s2
    ∧ ∀ i j c, values s0 !! i = Some (SStr c) → c ∈ categories0 →
        values s !! j = Some (SStr c) →
        ∃ id, values s1 !! i = Some (int id) ∧ values s2 !! j = Some (int id).
Proof.
  intros Hnd0 Hin0 Hdt0 Hlen Hnd Hin Hdt.
  unfold schemaConv2. rewrite schemaConv_contract_round_trip. csimpl.
  cbn [schemaConv fst snd].
  destruct (make_lookup_Some _ Hlen) as (lookup & Hmk & Hids & Hvals).
  assert (Hget : dict_get name (build_lookupTables df0) = Some lookup).
  { rewrite build_lookupTables_table_for. unfold table_for.
    by rewrite (dict_get_elem_of _ _ _ Hnd0 Hin0), Hdt0. }
  eexists. exists (astype_Int32 (Series_map (mapping_of lookup) s0)).
  eexists. split; [done|]. split; [|split].
  - unfold convert_columns.
    rewrite (dict_get_foldl_update
               (λ t s, astype_Int32 (Series_map (mapping_of t) s)))
      by apply build_lookupTables_NoDup.
    by rewrite Hget, (dict_get_elem_of _ _ _ Hnd0 Hin0).
  - rewrite (schemaConv2_apply_get _ df name s) by done.
    rewrite decide_True by by eapply elem_of_catList.
    by rewrite Hget.
  - intros i j c Hi Hc Hj.
    destruct (mapping_of_Some lookup c) as (id & Hid & _).
    { rewrite Hvals. by rewrite sorted_Permutation. }
    exists id. split.
    + unfold astype_Int32. cbn [values].
      rewrite values_Series_map, !list_lookup_fmap, Hi. simpl. by rewrite Hid.
    + destruct (lookup_replace_nan_None (Series_map (mapping_of lookup) s) j
                  (int id)) as (v' & Hv' & Hkeep & _).
      { rewrite values_Series_map, list_lookup_fmap, Hj. simpl. by rewrite Hid. }
      rewrite Hv'. f_equal. by apply Hkeep.
Qed.

Lemma schemaConv2_reuses_ids_witness :
  ∃ df2 s1 s2,
    schemaConv2 (Some (schemaConv [("species", species6)]).2)
      [("species",
        astype_category (mkSeries DObject [SStr "Dog"; SStr "Hamster"]))]
    = Ok df2
    ∧ dict_get "species" (schemaConv [("species", species6)]).1.1 = Some s1
    ∧ dict_get "species" df2 = Some s2
    ∧ ∃ id, values s1 !! 0%nat = Some (int id)
            ∧ values s2 !! 0%nat = Some (int id).
Proof.
  assert (Hnd : NoDup ["species"]) by (by compute_done).
  assert (Hin0 : ("species", species6) ∈ [("species", species6)]).
  { apply elem_of_cons. by left. }
  assert (Hin : ("species",
                 astype_category (mkSeries DObject [SStr "Dog"; SStr "Hamster"]))
                ∈ [("species",
                    astype_category
                      (mkSeries DObject [SStr "Dog"; SStr "Hamster"]))]).
  { apply elem_of_cons. by left. }
  assert (Hlen : 5 < length ["Bird"; "Cat"; "Dog"; "Fish"; "Rabbit"; "Turtle"])
    by (simpl; lia).
  destruct (schemaConv2_reuses_ids [("species", species6)]
              [("species",
                astype_category (mkSeries DObject [SStr "Dog"; SStr "Hamster"]))]
              "species" species6
              (astype_category (mkSeries DObject [SStr "Dog"; SStr "Hamster"]))
              ["Bird"; "Cat"; "Dog"; "Fish"; "Rabbit"; "Turtle"]
              ["Dog"; "Hamster"]
              Hnd Hin0 eq_refl Hlen Hnd Hin eq_refl)
    as (df2 & s1 & s2 & Hrun & H1 & H2 & Hids).
  exists df2, s1, s2. split; [exact Hrun|]. split; [exact H1|].
  split; [exact H2|].
  apply (Hids 0%nat 0%nat "Dog"); [reflexivity|by compute_done|reflexivity].
Defined.

Lemma sorted_sorted l : sorted (sorted l) = sorted l.
Proof.
  apply (Sorted_unique String.le); [apply sorted_Sorted..|].
  apply sorted_Permutation.
Qed.

(** A row of a lookup table sits at the position its id names. *)
Lemma make_lookup_position categories (lookup : lookup_df) id c :
  make_lookup categories = Some lookup →
  (id, c) ∈ lookup → lookup !! Z.to_nat (id - 1) = Some (id, c).
Proof.
  intros Hmk Hin.
  assert (Hlen : 5 < length categories).
  { apply make_lookup_is_Some. by eexists. }
  destruct (make_lookup_Some _ Hlen) as (t & Ht & Hids & Hvals).
  rewrite Ht in Hmk. injection Hmk as ->.
  assert (Hzip : lookup = zip (seqZ 1 (Z.of_nat (length (sorted categories))))
                            (sorted categories)).
  { rewrite <- (zip_fst_snd lookup), Hids, Hvals. by rewrite sorted_length. }
  rewrite Hzip in Hin |- *.
  apply elem_of_numbered in Hin as [Hid Hc].
  apply lookup_zip_with_Some. exists id, c. split; [done|]. split; [|done].
  apply lookup_seqZ. split; [lia|]. apply lookup_lt_Some in Hc. lia.
Qed.

(** X10. From the raw column to the ids. [dtypeConv] makes a text column
    categorical (line 190 and the like) and [schemaConv] then replaces it.
    If the column holds more than five distinct texts, the lookup table
    lists exactly these texts, each once and in sorted order; every text
    cell becomes the id of its text, which is the position of the text in
    the table, and every missing cell becomes [pd.NA]. *)
Theorem schemaConv_after_astype_category (df : DataFrame) name (col : Series) :
  NoDup df.*1 → (name, astype_category col) ∈ df →
  (∀ v, v ∈ values col → isna v = true ∨ ∃ c, v = SStr c) →
  5 < length (remove_dups (omap text_of (values col))) →
  ∃ lookup out,
    dict_get name (schemaConv df).1.2 = Some lookup
    ∧ lookup.*2 = sorted (remove_dups (omap text_of (values col)))
    ∧ NoDup lookup.*2
    ∧ (∀ c, c ∈ lookup.*2 ↔ SStr c ∈ values col)
    ∧ dict_get name (schemaConv df).1.1 = Some (mkSeries DInt32 out)
    ∧ ∀ i v, values col !! i = Some v →
        (isna v = true → out !! i = Some SNA)
        ∧ (∀ c, v = SStr c →
             ∃ id, out !! i = Some (int id)
                   ∧ lookup !! Z.to_nat (id - 1) = Some (id, c)).
Proof.
  intros Hnd Hin Htext Hmany.
  set (texts := remove_dups (omap text_of (values col))) in *.
  assert (Hlen : 5 < length (sorted texts)) by (by rewrite sorted_length).
  destruct (make_lookup_Some _ Hlen) as (lookup & Hmk & Hids & Hvals).
  rewrite sorted_sorted in Hvals.
  pose proof (dict_get_elem_of _ _ _ Hnd Hin) as Hcol.
  assert (Hget : dict_get name (build_lookupTables df) = Some lookup).
  { rewrite build_lookupTables_table_for. unfold table_for. by rewrite Hcol. }
  assert (Hmem : ∀ c, c ∈ lookup.*2 ↔ SStr c ∈ values col).
  { intros c. rewrite Hvals, sorted_Permutation. unfold texts.
    rewrite elem_of_remove_dups. apply elem_of_text_values. }
  exists lookup.
  exists ((λ v, if isna v then SNA else v)
            <$> (map_mapping (mapping_of lookup)
                   <$> values (astype_category col))).
  cbn [schemaConv fst snd]. split; [done|]. split; [done|]. split.
  { rewrite Hvals, sorted_Permutation. apply NoDup_remove_dups. }
  split; [done|]. split.
  - unfold convert_columns.
    rewrite (dict_get_foldl_update
               (λ t s, astype_Int32 (Series_map (mapping_of t) s)))
      by apply build_lookupTables_NoDup.
    rewrite Hget, Hcol. csimpl. unfold astype_Int32.
    by rewrite values_Series_map.
  - intros i v Hv. cbn [astype_category values].
    rewrite !list_lookup_fmap, Hv. csimpl. split.
    + intros ->. done.
    + intros c ->. simpl.
      destruct (mapping_of_Some lookup c) as (id & Hid & Hidc).
      { apply Hmem, list_elem_of_lookup. by exists i. }
      exists id. rewrite Hid. split; [done|].
      by apply (make_lookup_position (sorted texts)).
Qed.

Lemma schemaConv_after_astype_category_witness :
  ∃ lookup out,
    dict_get "species" (schemaConv [("species", species6)]).1.2 = Some lookup
    ∧ dict_get "species" (schemaConv [("species", species6)]).1.1
      = Some (mkSeries DInt32 out)
    ∧ ∃ id, out !! 0%nat = Some (int id)
            ∧ lookup !! Z.to_nat (id - 1) = Some (id, "Dog").
Proof.
  destruct (schemaConv_after_astype_category [("species", species6)] "species"
              (mkSeries DObject
                 (SStr <$> ["Dog"; "Cat"; "Dog"; "Bird"; "Cat"; "Dog"; "Fish";
                            "Rabbit"; "Turtle"])))
    as (lookup & out & Hget & _ & _ & _ & Hcol & Hcells).
  - by compute_done.
  - apply elem_of_cons. by left.
  - intros v Hv. right.
    apply list_elem_of_fmap in Hv as (c & -> & _). by exists c.
  - vm_compute. lia.
  - exists lookup, out. split; [exact Hget|]. split; [exact Hcol|].
    by apply (Hcells 0%nat (SStr "Dog")).
Defined.

(** ** [upConnection]: what a batch does to the stored rows *)

Section upsert_by_key_rows.
Context {R K : Type} `{EqDecision K} (key : R → K).

Lemma ups_fresh rs b :
  (∀ r, r ∈ rs → key r ≠ key b) → ups key rs b = rs ++ [b].
Proof.
  intros Hfresh. unfold ups.
  assert (existsb (λ old, bool_decide (key old = key b)) rs = false) as ->;
    [|done].
  apply existsb_false_elem_of. intros r Hr. simpl.
  by rewrite bool_decide_false by by apply Hfresh.
Qed.

Lemma ups_cases (rs : list R) (b : R) :
  (∃ r, r ∈ rs ∧ key r = key b) ∨ (∀ r, r ∈ rs → key r ≠ key b).
Proof.
  destruct (existsb (λ old, bool_decide (key old = key b)) rs) eqn:Hex.
  - left. apply existsb_elem_of in Hex as (r & Hr & Hk).
    exists r. split; [done|]. by apply bool_decide_eq_true in Hk.
  - right. intros r Hr Hk.
    pose proof (proj1 (existsb_false_elem_of _ _) Hex r Hr) as Hf. simpl in Hf.
    by rewrite bool_decide_true in Hf.
Qed.

Lemma ups_keys_present rs b :
  (∃ r, r ∈ rs ∧ key r = key b) → key <$> ups key rs b = key <$> rs.
Proof.
  intros Hex. rewrite ups_present by done. rewrite <- list_fmap_compose.
  apply list_fmap_ext. intros _ r _. simpl. by case_bool_decide.
Qed.

(** Keys that are distinct stay distinct. *)
Lemma ups_NoDup rs b :
  NoDup (key <$> rs) → NoDup (key <$> ups key rs b).
Proof.
  intros Hnd. destruct (ups_cases rs b) as [Hex|Hfresh].
  - by rewrite ups_keys_present.
  - rewrite ups_fresh by done. rewrite fmap_app. apply NoDup_app.
    split; [done|]. split; [|apply NoDup_singleton].
    intros k (r & -> & Hr)%list_elem_of_fmap Hk. simpl in Hk.
    apply list_elem_of_singleton in Hk. by apply (Hfresh r).
Qed.

Lemma foldl_ups_NoDup news rs :
  NoDup (key <$> rs) → NoDup (key <$> foldl (ups key) rs news).
Proof.
  revert rs. induction news as [|b news IH]; intros rs Hnd; [done|].
  simpl. by apply IH, ups_NoDup.
Qed.

(** A stored row keeps its position and its key, and it is untouched by a
    row with another key. *)
Lemma ups_lookup rs b i r :
  rs !! i = Some r →
  ∃ r', ups key rs b !! i = Some r' ∧ key r' = key r
        ∧ (key b ≠ key r → r' = r).
Proof.
  intros Hi. destruct (ups_cases rs b) as [Hex|Hfresh].
  - rewrite ups_present by done. rewrite list_lookup_fmap, Hi. simpl.
    eexists. split; [done|]. case_bool_decide as Hk; [|done].
    split; [done|]. intros Hne. by destruct Hne.
  - rewrite ups_fresh by done. exists r. split; [|done].
    by apply lookup_app_l_Some.
Qed.

Lemma foldl_ups_lookup news rs i r :
  rs !! i = Some r →
  ∃ r', foldl (ups key) rs news !! i = Some r' ∧ key r' = key r
        ∧ ((∀ b, b ∈ news → key b ≠ key r) → r' = r).
Proof.
  revert rs r. induction news as [|b news IH]; intros rs r Hi.
  - exists r. by split.
  - simpl. destruct (ups_lookup rs b i r Hi) as (r1 & Hi1 & Hk1 & Hsame1).
    destruct (IH _ _ Hi1) as (r' & Hi' & Hk' & Hsame).
    exists r'. split; [done|]. split; [congruence|]. intros Hnews.
    rewrite Hsame.
    + apply Hsame1, Hnews, elem_of_cons. by left.
    + intros b' Hb'. rewrite Hk1. apply Hnews, elem_of_cons. by right.
Qed.

Lemma ups_length rs b : length rs ≤ length (ups key rs b).
Proof.
  destruct (ups_cases rs b) as [Hex|Hfresh].
  - rewrite ups_present by done. by rewrite length_fmap.
  - rewrite ups_fresh by done. rewrite length_app. lia.
Qed.

Lemma foldl_ups_length news rs : length rs ≤ length (foldl (ups key) rs news).
Proof.
  revert rs. induction news as [|b news IH]; intros rs; [done|].
  simpl. etrans; [apply (ups_length rs b)|apply IH].
Qed.

Lemma foldl_ups_has_key news rs b :
  b ∈ news → ∃ r, r ∈ foldl (ups key) rs news ∧ key r = key b.
Proof.
  revert rs. induction news as [|b' news IH]; intros rs Hb;
    [by apply elem_of_nil in Hb|].
  simpl. apply elem_of_cons in Hb as [->|Hb]; [|by apply IH].
  apply foldl_ups_keeps_key, ups_has_key.
Qed.

End upsert_by_key_rows.

(** The rows [upConnection] leaves in a table with a primary key: the
    stored rows if a statement fails, the batch applied by key
    otherwise. *)
Lemma upConnection_rows (df : DataFrame) (t : Table) :
  table_wf t →
  columns (upConnection df t).1 = columns t
  ∧ primary_key (upConnection df t).1 = primary_key t
  ∧ (rows (upConnection df t).1 = rows t
     ∨ (first_error t (to_records df) = None
        ∧ rows (upConnection df t).1
          = foldl (ups (pk_values t)) (rows t) (inserted t <$> to_records df)
        ∧ Forall (λ r, length r = length (columns t))
            (rows (upConnection df t).1))).
Proof.
  intros [Hpk Hwf].
  destruct (first_error t (to_records df)) as [e|] eqn:He.
  - rewrite (upConnection_raised _ _ _ He). simpl. split; [done|].
    split; [done|]. by left.
  - rewrite (upConnection_committed _ _ He). simpl. split; [done|].
    split; [done|]. right. split; [done|].
    apply foldl_upsert_row_ups; [done..|].
    apply Forall_fmap, Forall_true. intros record. apply length_inserted.
Qed.

(** X13. [upConnection] keeps a table sound. The schema is not touched, every
    row still has one value per column, and if no two stored rows shared
    a primary key before the call, none do after it, whatever the batch
    repeats. *)
Theorem upConnection_invariants (df : DataFrame) (t : Table) :
  table_wf t →
  columns (upConnection df t).1 = columns t
  ∧ primary_key (upConnection df t).1 = primary_key t
  ∧ table_wf (upConnection df t).1
  ∧ (NoDup (pk_values t <$> rows t) →
     NoDup (pk_values t <$> rows (upConnection df t).1)).
Proof.
  intros Hwf. destruct (upConnection_rows df t Hwf) as (Hc & Hp & Hrows).
  split; [done|]. split; [done|]. destruct Hwf as [Hpk Hlen].
  destruct Hrows as [Hsame|(_ & Hups & Hlen')].
  - split; [|by rewrite Hsame]. split; [by rewrite Hp|].
    by rewrite Hsame, Hc.
  - split.
    + split; [by rewrite Hp|]. by rewrite Hc.
    + intros Hnd. rewrite Hups. by apply foldl_ups_NoDup.
Qed.

Lemma upConnection_invariants_witness :
  table_wf pets
  ∧ NoDup (pk_values pets <$> rows pets)
  ∧ NoDup (pk_values pets <$> rows (upConnection batch pets).1).
Proof.
  assert (Hwf : table_wf pets).
  { split; [done|]. repeat constructor. }
  assert (Hnd : NoDup (pk_values pets <$> rows pets)) by (by compute_done).
  split; [exact Hwf|]. split; [exact Hnd|].
  exact (proj2 (proj2 (proj2 (upConnection_invariants batch pets Hwf))) Hnd).
Defined.

(** X14. [upConnection] never deletes and never moves a row. The table does not
    shrink; each stored row keeps its position and its primary key; and a
    stored row whose key no record of the batch carries is left exactly
    as it was. *)
Theorem upConnection_never_deletes (df : DataFrame) (t : Table) :
  table_wf t →
  length (rows t) ≤ length (rows (upConnection df t).1)
  ∧ ∀ i r, rows t !! i = Some r →
      ∃ r',
        rows (upConnection df t).1 !! i = Some r'
        ∧ pk_values t r' = pk_values t r
        ∧ ((∀ record, record ∈ to_records df →
              pk_values t (inserted t record) ≠ pk_values t r) →
           r' = r).
Proof.
  intros Hwf. destruct (upConnection_rows df t Hwf) as (_ & _ & Hrows).
  destruct Hrows as [->|(_ & -> & _)].
  - split; [done|]. intros i r Hi. exists r. by split.
  - split; [apply foldl_ups_length|]. intros i r Hi.
    destruct (foldl_ups_lookup (pk_values t) (inserted t <$> to_records df)
                (rows t) i r Hi) as (r' & Hi' & Hk & Hsame).
    exists r'. split; [done|]. split; [done|]. intros Hother.
    apply Hsame. intros b (record & -> & Hrec)%list_elem_of_fmap.
    by apply Hother.
Qed.

Lemma upConnection_never_deletes_witness :
  table_wf pets
  ∧ ∃ r',
      rows (upConnection batch pets).1 !! 1%nat = Some r'
      ∧ pk_values pets r' = pk_values pets [int 7; SStr "Tom"; int 1].
Proof.
  assert (Hwf : table_wf pets).
  { split; [done|]. repeat constructor. }
  split; [exact Hwf|].
  destruct (proj2 (upConnection_never_deletes batch pets Hwf) 1%nat
              [int 7; SStr "Tom"; int 1] eq_refl) as (r' & Hr' & Hk & _).
  exists r'. by split.
Defined.

(** X15. The last write wins. After a batch that [upConnection] accepts, every
    record of the batch has a row under its key, and a row whose key
    occurs in the batch holds the values of the last record of the batch
    with that key; every other row was stored before. *)
Theorem upConnection_last_write_wins (df : DataFrame) (t : Table) :
  table_wf t →
  (∀ record, record ∈ to_records df → check_statement t record = None) →
  (∀ record, record ∈ to_records df →
     ∃ r, r ∈ rows (upConnection df t).1
          ∧ pk_values t r = pk_values t (inserted t record))
  ∧ ∀ r, r ∈ rows (upConnection df t).1 →
      match final_of (pk_values t) (inserted t <$> to_records df)
              (pk_values t r) with
      | Some x => r = x
      | None => r ∈ rows t
      end.
Proof.
  intros Hwf Hok.
  pose proof (first_error_None _ _ Hok) as He.
  destruct (upConnection_rows df t Hwf) as (_ & _ & Hrows).
  rewrite (upConnection_committed _ _ He) in *. simpl in *.
  destruct Hwf as [Hpk Hlen].
  destruct (foldl_upsert_row_ups t (inserted t <$> to_records df) (rows t))
    as [Hups _]; [done..| |].
  { apply Forall_fmap, Forall_true. intros record. apply length_inserted. }
  rewrite Hups. split.
  - intros record Hrec. apply foldl_ups_has_key.
    apply list_elem_of_fmap. by exists record.
  - intros r Hr. by apply foldl_ups_final.
Qed.

Lemma upConnection_last_write_wins_witness :
  table_wf pets
  ∧ match final_of (pk_values pets) (inserted pets <$> to_records batch)
            (pk_values pets [int 42; SStr "Max"; int 5]) with
    | Some x => [int 42; SStr "Max"; int 5] = x
    | None => [int 42; SStr "Max"; int 5] ∈ rows pets
    end.
Proof.
  assert (Hwf : table_wf pets).
  { split; [done|]. repeat constructor. }
  assert (Hok : ∀ record, record ∈ to_records batch →
            check_statement pets record = None).
  { intros record Hin. change (to_records batch) with
      [[("animalID", int 42); ("name", SStr "Rex"); ("age", int 4)];
       [("animalID", int 99); ("name", SStr "Ace"); ("age", int 1)];
       [("animalID", int 42); ("name", SStr "Max"); ("age", int 5)]] in Hin.
    repeat (apply elem_of_cons in Hin as [->|Hin]; [reflexivity|]).
    by apply elem_of_nil in Hin. }
  split; [exact Hwf|].
  apply (proj2 (upConnection_last_write_wins batch pets Hwf Hok)).
  by compute_done.
Defined.

Lemma check_statement_rows cols pk (rs1 rs2 : list row) record :
  check_statement (mkTable cols pk rs1) record
  = check_statement (mkTable cols pk rs2) record.
Proof. done. Qed.

Lemma foldl_upsert_row_no_key (t : Table) (news rs : list row) :
  primary_key t = [] → foldl (upsert_row t) rs news = rs ++ news.
Proof.
  intros Hpk. revert rs. induction news as [|b news IH]; intros rs; simpl.
  - by rewrite app_nil_r.
  - rewrite IH. unfold upsert_row.
    assert (existsb (λ old, duplicate_key t old b) rs = false) as ->.
    { apply existsb_false_elem_of. intros r _. unfold duplicate_key.
      by rewrite Hpk. }
    by rewrite <- app_assoc.
Qed.

(** X16. Without a primary key nothing is ever updated. On a table that has
    none, a batch [upConnection] accepts is appended record by record, so
    running the same batch again stores every record a second time. *)
Theorem upConnection_without_key_appends (df : DataFrame) (t : Table) :
  primary_key t = [] →
  (∀ record, record ∈ to_records df → check_statement t record = None) →
  upConnection df t
  = (mkTable (columns t) [] (rows t ++ (inserted t <$> to_records df)), None)
  ∧ rows (upConnection df (upConnection df t).1).1
    = rows t ++ (inserted t <$> to_records df) ++ (inserted t <$> to_records df).
Proof.
  intros Hpk Hok.
  pose proof (first_error_None _ _ Hok) as He.
  rewrite (upConnection_committed _ _ He), foldl_upsert_row_no_key by done.
  rewrite Hpk. split; [done|]. cbn [fst].
  set (t' := mkTable (columns t) [] (rows t ++ (inserted t <$> to_records df))).
  assert (He' : first_error t' (to_records df) = None).
  { unfold t'. rewrite <- He. destruct t as [cols pk rs]. simpl in *. subst pk.
    apply first_error_rows. }
  rewrite (upConnection_committed _ _ He'), foldl_upsert_row_no_key by done.
  simpl. by rewrite <- app_assoc.
Qed.

Lemma upConnection_without_key_appends_witness :
  rows (upConnection batch
          (upConnection batch (mkTable ["animalID"; "name"; "age"] [] [])).1).1
  = [[int 42; SStr "Rex"; int 4]; [int 99; SStr "Ace"; int 1];
     [int 42; SStr "Max"; int 5];
     [int 42; SStr "Rex"; int 4]; [int 99; SStr "Ace"; int 1];
     [int 42; SStr "Max"; int 5]].
Proof.
  assert (Hok : ∀ record, record ∈ to_records batch →
            check_statement (mkTable ["animalID"; "name"; "age"] [] []) record
            = None).
  { intros record Hin. change (to_records batch) with
      [[("animalID", int 42); ("name", SStr "Rex"); ("age", int 4)];
       [("animalID", int 99); ("name", SStr "Ace"); ("age", int 1)];
       [("animalID", int 42); ("name", SStr "Max"); ("age", int 5)]] in Hin.
    repeat (apply elem_of_cons in Hin as [->|Hin]; [reflexivity|]).
    by apply elem_of_nil in Hin. }
  exact (proj2 (upConnection_without_key_appends batch
                  (mkTable ["animalID"; "name"; "age"] [] []) eq_refl Hok)).
Defined.

(** ** [update_files] and the loaders *)

Lemma prefix_trans (a b c : string) :
  String.prefix a b = true → String.prefix b c = true → String.prefix a c = true.
Proof.
  revert b c. induction a as [|x a IH]; intros b c; [by destruct c|].
  destruct b as [|y b]; [done|]. destruct c as [|z c]; [done|]. simpl.
  destruct (ascii_dec x y) as [->|]; [|done].
  destruct (ascii_dec y z) as [->|]; [|done].
  apply IH.
Qed.

Lemma prefix_cons (a b : ascii) (s t : string) :
  String.prefix (String a s) (String b t)
  = if decide (a = b) then String.prefix s t else false.
Proof.
  cbn [String.prefix]. destruct (ascii_dec a b); by case_decide.
Qed.

Lemma daily_new_or_updated file :
  daily file = true →
  (startswith file "updated" || startswith file "new") = true.
Proof.
  unfold daily, startswith. intros [H|H]%orb_true_iff; apply orb_true_iff.
  - right. by apply (prefix_trans "new" "newpets").
  - left. by apply (prefix_trans "updated" "updatedpets").
Qed.

Lemma pets_not_daily file :
  startswith file "pets_" = true →
  daily file = false
  ∧ (startswith file "updated" || startswith file "new") = false.
Proof.
  unfold daily, startswith. destruct file as [|a file]; [done|].
  rewrite !prefix_cons. destruct (decide ("p"%char = a)) as [<-|]; [|done].
  intros _. split; repeat (case_decide; [done|]); done.
Qed.

(** The loop of [update_files], with the local listing [fileListl] taken
    before it. *)
Lemma update_files_loop_get (fileListl : list string) ftp (folder : Folder) f :
  NoDup ftp.*1 →
  dict_get f
    (foldl (λ (folder' : Folder) (remote : string * string),
              let file := remote.1 in
              if daily file then download_file remote.2 file folder'
              else if bool_decide (file ∈ fileListl) then folder'
              else download_file remote.2 file folder')
           folder ftp)
  = match dict_get f ftp with
    | Some content =>
        if daily f || negb (bool_decide (f ∈ fileListl))
        then Some content else dict_get f folder
    | None => dict_get f folder
    end.
Proof.
  revert folder. induction ftp as [|[name c] ftp IH]; intros folder Hnd; [done|].
  apply NoDup_cons in Hnd as [Hfresh Hnd]. cbn [foldl fst snd].
  rewrite IH by done. cbn [dict_get].
  destruct (decide (name = f)) as [->|Hne].
  - rewrite (proj2 (dict_get_None f ftp)) by done.
    destruct (daily f); simpl.
    + unfold download_file. rewrite dict_get_set. by rewrite decide_True.
    + case_bool_decide; simpl; [done|].
      unfold download_file. rewrite dict_get_set. by rewrite decide_True.
  - assert (Hset : ∀ d : Folder, dict_get f (download_file c name d) = dict_get f d).
    { intros d. unfold download_file. rewrite dict_get_set.
      by rewrite decide_False by done. }
    destruct (dict_get f ftp) as [content|].
    + destruct (daily f || negb (bool_decide (f ∈ fileListl))); [done|].
      destruct (daily name); [apply Hset|].
      case_bool_decide; [done|apply Hset].
    + destruct (daily name); [apply Hset|].
      case_bool_decide; [done|apply Hset].
Qed.

Lemma update_files_get ftp (folder : Folder) f :
  NoDup ftp.*1 →
  dict_get f (update_files ftp folder)
  = match dict_get f ftp with
    | Some content =>
        if daily f || negb (bool_decide (f ∈ folder.*1))
        then Some content else dict_get f folder
    | None => dict_get f folder
    end.
Proof. apply update_files_loop_get. Qed.

(** X17. What [update_files] leaves in the local folder, for a listing of
    distinct names. A daily update file and a file the folder did not have
    hold what the server sent. A file that is not a daily one and was in
    the folder is not transferred, so it keeps its local content whatever
    the server holds. A file the server does not list is left alone, and
    no file is ever removed. *)
Theorem update_files_spec ftp (folder : Folder) :
  NoDup ftp.*1 →
  (∀ file content, (file, content) ∈ ftp →
     (daily file = true ∨ file ∉ folder.*1 →
      dict_get file (update_files ftp folder) = Some content)
     ∧ (daily file = false → file ∈ folder.*1 →
        dict_get file (update_files ftp folder) = dict_get file folder))
  ∧ (∀ file, file ∉ ftp.*1 →
       dict_get file (update_files ftp folder) = dict_get file folder)
  ∧ (∀ file, file ∈ folder.*1 → file ∈ (update_files ftp folder).*1).
Proof.
  intros Hnd. split; [|split].
  - intros file content Hin. rewrite update_files_get by done.
    rewrite (dict_get_elem_of _ _ _ Hnd Hin). split.
    + intros [->|Hnew]; [done|].
      rewrite bool_decide_false by done. by rewrite orb_true_r.
    + intros -> Hold. by rewrite bool_decide_true by done.
  - intros file Hno. rewrite update_files_get by done.
    by rewrite (proj2 (dict_get_None file ftp)) by done.
  - intros file Hin.
    destruct (decide (file ∈ (update_files ftp folder).*1)) as [|Hno]; [done|].
    apply dict_get_None in Hno. rewrite update_files_get in Hno by done.
    assert (Hold : dict_get file folder ≠ None).
    { intros Hnone. by apply dict_get_None in Hnone. }
    destruct (dict_get file ftp); [|done].
    rewrite bool_decide_true in Hno by done.
    by destruct (daily file).
Qed.

Lemma update_files_spec_witness :
  NoDup ["pets_1.zip"; "newpets.zip"; "pets_2.zip"]
  ∧ dict_get "newpets.zip"
      (update_files
         [("pets_1.zip", "server 1"); ("newpets.zip", "today");
          ("pets_2.zip", "server 2")]
         [("pets_1.zip", "local 1"); ("newpets.zip", "yesterday")])
    = Some "today"
  ∧ dict_get "pets_1.zip"
      (update_files
         [("pets_1.zip", "server 1"); ("newpets.zip", "today");
          ("pets_2.zip", "server 2")]
         [("pets_1.zip", "local 1"); ("newpets.zip", "yesterday")])
    = Some "local 1".
Proof.
  assert (Hnd : NoDup ["pets_1.zip"; "newpets.zip"; "pets_2.zip"])
    by (by compute_done).
  pose proof (proj1 (update_files_spec
                [("pets_1.zip", "server 1"); ("newpets.zip", "today");
                 ("pets_2.zip", "server 2")]
                [("pets_1.zip", "local 1"); ("newpets.zip", "yesterday")] Hnd))
    as Hspec.
  split; [exact Hnd|]. split.
  - apply (Hspec "newpets.zip" "today"); [by compute_done|]. by left.
  - apply (Hspec "pets_1.zip" "server 1"); by compute_done.
Defined.

Lemma update_files_loop_fixed (fileListl : list string) ftp (folder : Folder) :
  (∀ file content, (file, content) ∈ ftp →
     if daily file then dict_get file folder = Some content
     else file ∈ fileListl) →
  foldl (λ (folder' : Folder) (remote : string * string),
           let file := remote.1 in
           if daily file then download_file remote.2 file folder'
           else if bool_decide (file ∈ fileListl) then folder'
           else download_file remote.2 file folder')
        folder ftp
  = folder.
Proof.
  induction ftp as [|[name c] ftp IH]; intros Hall; [done|].
  cbn [foldl fst snd].
  assert (Hrest : ∀ file content, (file, content) ∈ ftp →
            if daily file then dict_get file folder = Some content
            else file ∈ fileListl).
  { intros file content Hin. apply Hall, elem_of_cons. by right. }
  specialize (Hall name c (proj2 (elem_of_cons _ _ _) (or_introl eq_refl))).
  destruct (daily name).
  - unfold download_file. rewrite dict_set_same by done. by apply IH.
  - rewrite bool_decide_true by done. by apply IH.
Qed.

(** X18. Running [update_files] again against the same listing changes
    nothing. *)
Theorem update_files_idempotent ftp (folder : Folder) :
  NoDup ftp.*1 →
  update_files ftp (update_files ftp folder) = update_files ftp folder.
Proof.
  intros Hnd. unfold update_files at 1. apply update_files_loop_fixed.
  intros file content Hin.
  pose proof (update_files_get ftp folder file Hnd) as Hget.
  rewrite (dict_get_elem_of _ _ _ Hnd Hin) in Hget.
  destruct (daily file) eqn:Hd; [done|]. simpl in Hget.
  destruct (decide (file ∈ (update_files ftp folder).*1)) as [|Hno]; [done|].
  apply dict_get_None in Hno. rewrite Hno in Hget.
  case_bool_decide as Hold; simpl in Hget; [|done].
  symmetry in Hget. by apply dict_get_None in Hget.
Qed.

Lemma update_files_idempotent_witness :
  NoDup ["pets_1.zip"; "newpets.zip"]
  ∧ update_files [("pets_1.zip", "server 1"); ("newpets.zip", "today")]
      [("newpets.zip", "today"); ("pets_1.zip", "server 1")]
    = [("newpets.zip", "today"); ("pets_1.zip", "server 1")].
Proof.
  assert (Hnd : NoDup ["pets_1.zip"; "newpets.zip"]) by (by compute_done).
  split; [exact Hnd|].
  exact (update_files_idempotent
           [("pets_1.zip", "server 1"); ("newpets.zip", "today")]
           [("newpets.zip", "yesterday")] Hnd).
Defined.

(** *** The loaders *)

Section loaders_proofs.
Context {J : Type}.
Variable ZipFile : string → result (list (string * list string)).
Variable json_loads : string → result J.

Lemma extend_selected_subset (select select' : string → bool)
    (fileList : Folder) (data data' data_u : list J) :
  (∀ file, select' file = true → select file = true) →
  extend_selected ZipFile json_loads select fileList data = Ok data_u →
  data' `sublist_of` data →
  ∃ data_n,
    extend_selected ZipFile json_loads select' fileList data' = Ok data_n
    ∧ data_n `sublist_of` data_u.
Proof.
  intros Hsub. revert data data'.
  induction fileList as [|[file content] fileList IH]; intros data data' Hrun Hdata.
  - simpl in *. injection Hrun as <-. by exists data'.
  - simpl in *. destruct (select' file) eqn:Hs'.
    + rewrite (Hsub _ Hs') in Hrun.
      destruct (zipReader ZipFile json_loads content) as [rows|e]; [|done].
      csimpl in *. apply (IH _ _ Hrun). by apply sublist_app.
    + destruct (select file).
      * destruct (zipReader ZipFile json_loads content) as [rows|e]; [|done].
        csimpl in *. apply (IH _ _ Hrun). by apply sublist_inserts_r.
      * by apply (IH _ _ Hrun).
Qed.

Lemma extend_selected_dict_set (select : string → bool) name c
    (fileList : Folder) (data : list J) :
  select name = false →
  extend_selected ZipFile json_loads select (dict_set name c fileList) data
  = extend_selected ZipFile json_loads select fileList data.
Proof.
  intros Hname. revert data.
  induction fileList as [|[file content] fileList IH]; intros data; simpl.
  - by rewrite Hname.
  - destruct (decide (file = name)) as [->|Hne]; simpl.
    + by rewrite Hname.
    + destruct (select file); [|apply IH].
      destruct (zipReader ZipFile json_loads content); [|done]. csimpl. apply IH.
Qed.

Lemma extend_selected_update_files (select : string → bool) ftp
    (folder : Folder) (data : list J) :
  (∀ file content, (file, content) ∈ ftp → select file = true →
     daily file = false ∧ file ∈ folder.*1) →
  extend_selected ZipFile json_loads select (update_files ftp folder) data
  = extend_selected ZipFile json_loads select folder data.
Proof.
  unfold update_files. generalize (folder.*1) as fileListl. intros fileListl.
  revert folder. induction ftp as [|[name c] ftp IH]; intros folder Hall; [done|].
  cbn [foldl fst snd].
  assert (Hrest : ∀ file content, (file, content) ∈ ftp → select file = true →
            daily file = false ∧ file ∈ fileListl).
  { intros file content Hin. apply (Hall file content), elem_of_cons. by right. }
  specialize (Hall name c (proj2 (elem_of_cons _ _ _) (or_introl eq_refl))).
  rewrite IH by done.
  destruct (select name) eqn:Hs.
  - destruct Hall as [-> Hin]; [done|]. by rewrite bool_decide_true.
  - destruct (daily name); [by apply extend_selected_dict_set|].
    case_bool_decide; [done|]. by apply extend_selected_dict_set.
Qed.

(** The loop with its accumulator reads the selected files in the order of
    the listing and stops at the first file that fails. *)
Lemma extend_selected_filter (select : string → bool) (fileList : Folder)
    (data : list J) :
  extend_selected ZipFile json_loads select fileList data
  = (rowss ← rmapM (λ fc, zipReader ZipFile json_loads fc.2)
               (filter (λ fc, select fc.1 = true) fileList) ;
     Ok (data ++ concat rowss)).
Proof.
  unfold Folder, dict in *. revert data.
  induction fileList as [|[file content] fileList IH]; intros data.
  - csimpl. by rewrite app_nil_r.
  - cbn [extend_selected]. rewrite filter_cons. cbn [fst snd].
    destruct (select file) eqn:Hs.
    + rewrite decide_True by done. cbn [rmapM snd].
      destruct (zipReader ZipFile json_loads content) as [rows|e]; [|done].
      csimpl. rewrite IH.
      destruct (rmapM _ (filter _ fileList)) as [rowss|e]; [|done].
      csimpl. by rewrite app_assoc.
    + rewrite decide_False by done. apply IH.
Qed.

End loaders_proofs.

(** X19. What the three loaders read. Each loader hands to [pd.DataFrame] the
    rows of the files whose names it selects, file after file in the
    order of the listing, and raises what the first failing file raises:
    [initialData] selects the names that start with "pets_", [updateData]
    those that start with "updated" or with "new", [newData] those that
    start with "new". *)
Theorem loaders_read_selected_files {J} ZipFile json_loads
    (pd_DataFrame : list J → DataFrame) (folder : Folder) :
  initialData ZipFile json_loads pd_DataFrame folder
  = (rowss ← rmapM (λ fc, zipReader ZipFile json_loads fc.2)
               (filter (λ fc, startswith fc.1 "pets_" = true) folder) ;
     Ok (pd_DataFrame (concat rowss)))
  ∧ updateData ZipFile json_loads pd_DataFrame folder
    = (rowss ← rmapM (λ fc, zipReader ZipFile json_loads fc.2)
                 (filter (λ fc, startswith fc.1 "updated" || startswith fc.1 "new"
                                = true) folder) ;
       Ok (pd_DataFrame (concat rowss)))
  ∧ newData ZipFile json_loads pd_DataFrame folder
    = (rowss ← rmapM (λ fc, zipReader ZipFile json_loads fc.2)
                 (filter (λ fc, startswith fc.1 "new" = true) folder) ;
       Ok (pd_DataFrame (concat rowss))).
Proof.
  unfold initialData, updateData, newData.
  rewrite !extend_selected_filter.
  split; [|split];
    by destruct (rmapM _ (filter _ folder)) as [rowss|e].
Qed.

(** X20. [updateData] reads the files of [newData] as well: it selects every
    name that starts with "new", not only the "updated" ones. So whenever
    [updateData] returns, [newData] returns too, and the rows of [newData]
    are among the rows of [updateData], in the same order. *)
Theorem newData_within_updateData {J} ZipFile json_loads
    (pd_DataFrame : list J → DataFrame) (folder : Folder) dfu :
  updateData ZipFile json_loads pd_DataFrame folder = Ok dfu →
  ∃ data_u data_n,
    dfu = pd_DataFrame data_u
    ∧ extend_selected ZipFile json_loads
        (λ file, startswith file "updated" || startswith file "new") folder []
      = Ok data_u
    ∧ newData ZipFile json_loads pd_DataFrame folder = Ok (pd_DataFrame data_n)
    ∧ data_n `sublist_of` data_u.
Proof.
  unfold updateData, newData.
  destruct (extend_selected ZipFile json_loads
              (λ file, startswith file "updated" || startswith file "new")
              folder []) as [data_u|e] eqn:Hu; [|done].
  csimpl. intros [= <-].
  destruct (extend_selected_subset ZipFile json_loads
              (λ file, startswith file "updated" || startswith file "new")
              (λ file, startswith file "new") folder [] [] data_u)
    as (data_n & Hn & Hsub); [|done|done|].
  { intros file Hf. simpl. rewrite Hf. apply orb_true_r. }
  exists data_u, data_n. rewrite Hn. by csimpl.
Qed.

Lemma newData_within_updateData_witness :
  ∃ data_u data_n : list string,
    [("rows", mkSeries DObject (SStr <$> ["a"; "b"; "c"]))]
    = (λ data, [("rows", mkSeries DObject (SStr <$> data))]) data_u
    ∧ extend_selected (λ content, Ok [("member", [content])]) (λ line, Ok line)
        (λ file, startswith file "updated" || startswith file "new")
        [("updatedpets.zip", "a"); ("pets_1.zip", "x"); ("newpets.zip", "b");
         ("news.zip", "c")] []
      = Ok data_u
    ∧ newData (λ content, Ok [("member", [content])]) (λ line, Ok line)
        (λ data, [("rows", mkSeries DObject (SStr <$> data))])
        [("updatedpets.zip", "a"); ("pets_1.zip", "x"); ("newpets.zip", "b");
         ("news.zip", "c")]
      = Ok ((λ data, [("rows", mkSeries DObject (SStr <$> data))]) data_n)
    ∧ data_n `sublist_of` data_u.
Proof.
  apply (newData_within_updateData
           (λ content, Ok [("member", [content])]) (λ line, Ok line)
           (λ data, [("rows", mkSeries DObject (SStr <$> data))])
           [("updatedpets.zip", "a"); ("pets_1.zip", "x"); ("newpets.zip", "b");
            ("news.zip", "c")]).
  reflexivity.
Defined.

(** X21. The daily transfers never change the initial data set. If the folder
    already holds every "pets_" file the server lists, [initialData] reads
    after [update_files] exactly what it read before: it selects no daily
    file, and the files it does select are never transferred again. *)
Theorem initialData_after_update_files {J} ZipFile json_loads
    (pd_DataFrame : list J → DataFrame) ftp (folder : Folder) :
  (∀ file content, (file, content) ∈ ftp →
     startswith file "pets_" = true → file ∈ folder.*1) →
  initialData ZipFile json_loads pd_DataFrame (update_files ftp folder)
  = initialData ZipFile json_loads pd_DataFrame folder.
Proof.
  intros Hhave. unfold initialData.
  rewrite extend_selected_update_files; [done|].
  intros file content Hin Hsel. split; [|by eapply Hhave].
  by apply pets_not_daily.
Qed.

Lemma initialData_after_update_files_witness :
  initialData (λ content, Ok [("member", [content])]) (λ line, Ok line)
    (λ data, [("rows", mkSeries DObject (SStr <$> data))])
    (update_files [("pets_1.zip", "server 1"); ("newpets.zip", "today")]
       [("pets_1.zip", "local 1"); ("newpets.zip", "yesterday")])
  = Ok [("rows", mkSeries DObject [SStr "local 1"])].
Proof.
  rewrite (initialData_after_update_files
             (λ content, Ok [("member", [content])]) (λ line, Ok line)
             (λ data, [("rows", mkSeries DObject (SStr <$> data))])
             [("pets_1.zip", "server 1"); ("newpets.zip", "today")]
             [("pets_1.zip", "local 1"); ("newpets.zip", "yesterday")]).
  - reflexivity.
  - intros file content Hin Hsel.
    apply elem_of_cons in Hin as [[= -> ->]|Hin]; [by compute_done|].
    apply elem_of_cons in Hin as [[= -> ->]|Hin]; [done|].
    by apply elem_of_nil in Hin.
Defined.

(** ** [inConnection] and [uploadLookupTables] *)

Lemma rmapM_Ok {A B} (f : A → result B) (l : list A) (l' : list B) :
  rmapM f l = Ok l' → Forall2 (λ a b, f a = Ok b) l l'.
Proof.
  revert l'. induction l as [|a l IH]; intros l'; simpl.
  - intros [= <-]. constructor.
  - destruct (f a) as [b|e] eqn:Hb; [|done]. csimpl.
    destruct (rmapM f l) as [bs|e]; [|done]. csimpl. intros [= <-].
    constructor; [done|]. by apply IH.
Qed.

Lemma rmapM_ext {A B} (f g : A → result B) (l : list A) :
  (∀ a, a ∈ l → f a = g a) → rmapM f l = rmapM g l.
Proof.
  induction l as [|a l IH]; intros Hfg; [done|]. simpl.
  rewrite Hfg by (apply elem_of_cons; by left).
  rewrite IH; [done|]. intros b Hb. apply Hfg, elem_of_cons. by right.
Qed.

Lemma dtype_map_get (df : DataFrame) name :
  dict_get name (dtype_map df)
  = if bool_decide (name ∈ df.*1 ∧ (name = "description" ∨ name = "pictures"))
    then Some MEDIUMTEXT else None.
Proof.
  unfold dtype_map.
  destruct (decide ("description" ∈ df.*1)) as [Hd|Hd];
    destruct (decide ("pictures" ∈ df.*1)) as [Hp|Hp];
    rewrite ?(bool_decide_true ("description" ∈ df.*1)) by done;
    rewrite ?(bool_decide_false ("description" ∈ df.*1)) by done;
    rewrite ?(bool_decide_true ("pictures" ∈ df.*1)) by done;
    rewrite ?(bool_decide_false ("pictures" ∈ df.*1)) by done;
    rewrite ?dict_get_set; cbn [dict_get];
    destruct (decide (name = "pictures")) as [Hn1|Hn1];
    destruct (decide (name = "description")) as [Hn2|Hn2];
    try done; subst;
    first [ rewrite bool_decide_true by (split; auto)
          | rewrite bool_decide_false by (intros [? [?|?]]; congruence) ];
    done.
Qed.

(** What a successful [to_sql] has done. *)
Lemma to_sql_Ok ty name dtype (df : DataFrame) (db db1 : Database) :
  to_sql ty name dtype df db = Ok db1 →
  NoDup df.*1 ∧ df ≠ []
  ∧ ∃ rs,
      rmapM (to_sql_row df.*1) (to_records df) = Ok rs
      ∧ db1
        = dict_set name
            (mkRelation
               ((λ c, default (ty c.2) (dict_get c.1 dtype)) <$> df)
               (mkTable df.*1 [] rs))
            db.
Proof.
  unfold to_sql.
  case_bool_decide as Hnd; [|done]. case_bool_decide as Hne; [done|].
  case_bool_decide as Hci; [|done]. simpl.
  destruct (rmapM (to_sql_row df.*1) (to_records df)) as [rs|e]; [|done].
  csimpl. intros [= <-]. split; [done|]. split; [done|]. by exists rs.
Qed.

(** What a successful [ADD PRIMARY KEY] has found. *)
Lemma add_primary_key_Ok name col (db db2 : Database) :
  add_primary_key name col db = Ok db2 →
  ∃ rel i c,
    dict_get name db = Some rel
    ∧ primary_key (body rel) = []
    ∧ columns (body rel) !! i = Some c
    ∧ str_lower c = str_lower col
    ∧ NoDup ((λ r : list scalar, default SNone (r !! i)) <$> rows (body rel))
    ∧ (∀ r, r ∈ rows (body rel) → isna (default SNone (r !! i)) = false)
    ∧ db2
      = dict_set name
          (mkRelation (coltypes rel)
             (mkTable (columns (body rel)) [c] (rows (body rel))))
          db.
Proof.
  unfold add_primary_key. destruct (dict_get name db) as [rel|]; [|done].
  case_bool_decide as Hpk; [|done]. simpl.
  destruct (list_find _ (columns (body rel))) as [[i c]|] eqn:Hfind; [|done].
  apply list_find_Some in Hfind as (Hi & Hc & _).
  destruct (is_text _); [done|].
  destruct (existsb isna _) eqn:Hna; [done|].
  case_bool_decide as Hnd; [|done]. simpl. intros [= <-].
  exists rel, i, c. split; [done|]. split; [done|]. split; [done|].
  split; [done|]. split; [done|]. split; [|done].
  intros r Hr.
  apply (proj1 (existsb_false_elem_of _ _) Hna).
  apply list_elem_of_fmap. by exists r.
Qed.

(** The relation a successful [inConnection] leaves under the lower-cased
    name, and the rest of the database. *)
Lemma inConnection_Ok ty (df : DataFrame) table (db db' : Database) :
  inConnection ty df table db = Ok db' →
  NoDup df.*1 ∧ df ≠ []
  ∧ ∃ rs pk,
      rmapM (to_sql_row df.*1) (to_records df) = Ok rs
      ∧ dict_get (str_lower table) db'
        = Some (mkRelation
                  ((λ c, default (ty c.2) (dict_get c.1 (dtype_map df))) <$> df)
                  (mkTable df.*1 pk rs))
      ∧ (∀ other, other ≠ str_lower table →
           dict_get other db' = dict_get other db)
      ∧ (table ≠ "pets" → table ≠ "new_pets" → pk = [])
      ∧ (table = "pets" ∨ table = "new_pets" →
         ∃ i c,
           pk = [c] ∧ df.*1 !! i = Some c ∧ str_lower c = "animalid"
           ∧ NoDup ((λ r : list scalar, default SNone (r !! i)) <$> rs)
           ∧ ∀ r, r ∈ rs → isna (default SNone (r !! i)) = false).
Proof.
  unfold inConnection. cbn zeta.
  destruct (to_sql ty (str_lower table) (dtype_map df) df db) as [db1|e] eqn:Hsql;
    [|done].
  apply to_sql_Ok in Hsql as (Hnd & Hne & rs & Hrs & ->). csimpl.
  set (rel0 := mkRelation
                 ((λ c, default (ty c.2) (dict_get c.1 (dtype_map df))) <$> df)
                 (mkTable df.*1 [] rs)).
  assert (Hkeyed : ∀ name, table = name → str_lower name = name →
            add_primary_key name "animalID" (dict_set (str_lower table) rel0 db)
            = Ok db' →
            ∃ i c,
              dict_get (str_lower table) db'
              = Some (mkRelation (coltypes rel0) (mkTable df.*1 [c] rs))
              ∧ (∀ other, other ≠ str_lower table →
                   dict_get other db' = dict_get other db)
              ∧ df.*1 !! i = Some c ∧ str_lower c = "animalid"
              ∧ NoDup ((λ r : list scalar, default SNone (r !! i)) <$> rs)
              ∧ ∀ r, r ∈ rs → isna (default SNone (r !! i)) = false).
  { intros name -> Hlow Hadd. rewrite Hlow in *.
    apply add_primary_key_Ok in Hadd
      as (rel & i & c & Hget & _ & Hi & Hc & Hkeys & Hnull & ->).
    rewrite dict_get_set, decide_True in Hget by done. injection Hget as <-.
    exists i, c. simpl in *. split.
    { by rewrite dict_get_set, decide_True. }
    split; [|done]. intros other Hother.
    by rewrite !dict_get_set, !decide_False by done. }
  destruct (decide (table = "pets")) as [Hpets|Hpets].
  - destruct (add_primary_key "pets" "animalID" _) as [db2|e] eqn:Hadd; [|done].
    csimpl. destruct (decide (table = "new_pets")) as [Hnew|_]; [congruence|].
    intros [= <-].
    destruct (Hkeyed "pets" Hpets eq_refl Hadd)
      as (i & c & Hget & Hother & Hi & Hc & Hkeys & Hnull).
    split; [done|]. split; [done|]. exists rs, [c].
    split; [done|]. split; [done|]. split; [done|]. split; [done|].
    intros _. by exists i, c.
  - csimpl. destruct (decide (table = "new_pets")) as [Hnew|Hnew].
    + intros Hadd.
      destruct (Hkeyed "new_pets" Hnew eq_refl Hadd)
        as (i & c & Hget & Hother & Hi & Hc & Hkeys & Hnull).
      split; [done|]. split; [done|]. exists rs, [c].
      split; [done|]. split; [done|]. split; [done|]. split; [done|].
      intros _. by exists i, c.
    + intros [= <-]. split; [done|]. split; [done|]. exists rs, [].
      split; [done|]. split.
      { by rewrite dict_get_set, decide_True. }
      split.
      { intros other Hother. by rewrite dict_get_set, decide_False. }
      split; [done|]. by intros [?|?].
Qed.

(** X22. Whenever [inConnection] returns, the table stored under the
    lower-cased name has the labels of the frame as its columns and one
    row per record; the columns [description] and [pictures] are long
    text whatever pandas infers, and every other column has the inferred
    type. The table has a primary key, the identifier column, only when
    the name passed is exactly "pets" or "new_pets": under any other name,
    such as "Pets", the table is written without a key. No other table of
    the database is touched. *)
Theorem inConnection_stores ty (df : DataFrame) table (db db' : Database) :
  inConnection ty df table db = Ok db' →
  ∃ rel,
    dict_get (str_lower table) db' = Some rel
    ∧ columns (body rel) = df.*1
    ∧ length (rows (body rel)) = length (to_records df)
    ∧ (∀ i name s, df !! i = Some (name, s) →
         coltypes rel !! i
         = Some (if bool_decide (name = "description" ∨ name = "pictures")
                 then MEDIUMTEXT else ty s))
    ∧ (table ≠ "pets" → table ≠ "new_pets" → primary_key (body rel) = [])
    ∧ (table = "pets" ∨ table = "new_pets" →
       ∃ c, primary_key (body rel) = [c] ∧ c ∈ df.*1
            ∧ str_lower c = "animalid")
    ∧ ∀ other, other ≠ str_lower table →
        dict_get other db' = dict_get other db.
Proof.
  intros Hrun.
  apply inConnection_Ok in Hrun
    as (Hnd & Hne & rs & pk & Hrs & Hget & Hother & Hnokey & Hkey).
  eexists. split; [exact Hget|]. simpl. split; [done|]. split.
  { apply rmapM_Ok, Forall2_length in Hrs. done. }
  split.
  { intros i name s Hi. unfold DataFrame, dict in *.
    rewrite list_lookup_fmap, Hi. simpl. f_equal.
    rewrite dtype_map_get.
    assert (Hin : name ∈ df.*1).
    { apply list_elem_of_fmap. exists (name, s). split; [done|].
      by eapply list_elem_of_lookup_2. }
    repeat case_bool_decide; try done; tauto. }
  split; [done|]. split; [|done].
  intros Hname. destruct (Hkey Hname) as (i & c & -> & Hi & Hc & _).
  exists c. split; [done|]. split; [|done]. by eapply list_elem_of_lookup_2.
Qed.

Lemma inConnection_stores_witness :
  ∃ rel,
    dict_get "pets"
      (dict_set "pets"
         (mkRelation [BIGINT; TEXT; MEDIUMTEXT]
            (mkTable ["animalID"; "name"; "description"] []
               [[int 42; SStr "Rex"; SNone]]))
         ([] : Database)) = Some rel
    ∧ primary_key (body rel) = []
    ∧ coltypes rel !! 2%nat = Some MEDIUMTEXT.
Proof.
  destruct (inConnection_stores
              (λ s, match sdtype s with DInt64 => BIGINT | _ => TEXT end)
              [("animalID", mkSeries DInt64 [int 42]);
               ("name", mkSeries DObject [SStr "Rex"]);
               ("description", mkSeries DObject [SNaN])]
              "Pets" [] _ eq_refl)
    as (rel & Hget & _ & _ & Hty & Hpk & _ & _).
  exists rel. split; [exact Hget|]. split.
  - by apply Hpk.
  - exact (Hty 2%nat "description" (mkSeries DObject [SNaN]) eq_refl).
Defined.

Section final_of_rows.
Context {R K : Type} `{EqDecision K} (key : R → K).




End final_of_rows.








(** *** [uploadLookupTables] *)

Lemma to_records_lookup_frame (lookup : lookup_df) :
  to_records (lookup_frame lookup)
  = (λ r, [("id", int r.1); ("value", SStr r.2)]) <$> lookup.
Proof.
  unfold to_records, lookup_frame. cbn [nrows to_records_aux values].
  rewrite !length_fmap.
  induction lookup as [|[id v] lookup IH]; [done|]. csimpl in *.
  f_equal. apply IH.
Qed.

Lemma to_sql_lookup_frame ty name dtype (lookup : lookup_df) (db : Database) :
  to_sql ty name dtype (lookup_frame lookup) db
  = Ok (dict_set name
          (mkRelation
             ((λ c, default (ty c.2) (dict_get c.1 dtype))
                <$> lookup_frame lookup)
             (mkTable ["id"; "value"] []
                ((λ r, [int r.1; SStr r.2]) <$> lookup)))
          db).
Proof.
  unfold to_sql.
  rewrite bool_decide_true by (by compute_done).
  rewrite bool_decide_false by done.
  rewrite bool_decide_true by (by compute_done). simpl negb. cbn iota.
  rewrite to_records_lookup_frame, rmapM_fmap.
  rewrite (rmapM_total _ (λ r, [int r.1; SStr r.2])); [done|].
  by intros [id v] _.
Qed.

(** X24. [uploadLookupTables] stores every lookup table under the lower-cased
    name of its column, with the columns [id] and [value], one row per
    value and no key, and touches no other table. It returns normally
    provided the names stay distinct in lower case and none of them is
    "pets" or "new_pets", the two names for which [inConnection] asks for
    an identifier column. *)
Theorem uploadLookupTables_stores ty (lookupDict : dict lookup_df)
    (db : Database) :
  NoDup (str_lower <$> lookupDict.*1) →
  "pets" ∉ lookupDict.*1 → "new_pets" ∉ lookupDict.*1 →
  ∃ db',
    uploadLookupTables ty lookupDict db = Ok db'
    ∧ (∀ col lookup, (col, lookup) ∈ lookupDict →
         ∃ rel,
           dict_get (str_lower col) db' = Some rel
           ∧ body rel
             = mkTable ["id"; "value"] []
                 ((λ r, [int r.1; SStr r.2]) <$> lookup))
    ∧ ∀ other, other ∉ str_lower <$> lookupDict.*1 →
        dict_get other db' = dict_get other db.
Proof.
  revert db. induction lookupDict as [|[col lookup] lookupDict IH];
    intros db Hnd Hpets Hnew.
  - exists db. split; [done|]. split; [|done].
    intros col lookup Hin. by apply elem_of_nil in Hin.
  - csimpl in *. apply NoDup_cons in Hnd as [Hfresh Hnd].
    apply not_elem_of_cons in Hpets as [Hp1 Hpets].
    apply not_elem_of_cons in Hnew as [Hn1 Hnew].
    unfold inConnection. cbn zeta. rewrite to_sql_lookup_frame. csimpl.
    rewrite decide_False by done. csimpl. rewrite decide_False by done.
    destruct (IH (dict_set (str_lower col)
                    (mkRelation
                       ((λ c, default (ty c.2)
                                (dict_get c.1 (dtype_map (lookup_frame lookup))))
                          <$> lookup_frame lookup)
                       (mkTable ["id"; "value"] []
                          ((λ r, [int r.1; SStr r.2]) <$> lookup)))
                    db) Hnd Hpets Hnew)
      as (db' & Hrun & Hstored & Hother).
    exists db'. split; [done|]. split.
    + intros col' lookup' Hin. apply elem_of_cons in Hin as [[= -> ->]|Hin].
      * eexists. rewrite Hother by done.
        rewrite dict_get_set, decide_True by done. done.
      * by apply Hstored.
    + intros other Hno. apply not_elem_of_cons in Hno as [Hne Hno].
      rewrite Hother by done. by rewrite dict_get_set, decide_False.
Qed.

Lemma uploadLookupTables_stores_witness :
  ∃ db',
    uploadLookupTables (λ _, TEXT)
      [("Breed", [(1, "Beagle"); (2, "Collie")]%Z)] [] = Ok db'
    ∧ ∃ rel,
        dict_get "breed" db' = Some rel
        ∧ body rel
          = mkTable ["id"; "value"] []
              [[int 1; SStr "Beagle"]; [int 2; SStr "Collie"]].
Proof.
  destruct (uploadLookupTables_stores (λ _, TEXT)
              [("Breed", [(1, "Beagle"); (2, "Collie")]%Z)] [])
    as (db' & Hrun & Hstored & _); [by compute_done..|].
  exists db'. split; [exact Hrun|].
  apply (Hstored "Breed" [(1, "Beagle"); (2, "Collie")]%Z).
  apply elem_of_cons. by left.
Defined.
